(** * Pong (src/pong.tsx): the frame loop and the session state

    The component keeps two kinds of state.  React state ([gameStarted],
    [gamePaused], [score], [winner], ...) survives renders.  The game objects
    (ball, paddles, key flags, particles) are locals of the game-loop effect:
    they live exactly as long as one run of that effect.

    JavaScript numbers are IEEE 754 binary64 values, so positions and
    velocities are primitive floats and every arithmetic operation below
    rounds as the program's does. *)

From Stdlib Require Import Floats List Bool Arith Lia String.
Import ListNotations.
Set Warnings "-inexact-float".

Local Open Scope float_scope.

(** ** Numbers *)

(** [a > b] and [a < b] of the source; both are false on NaN. *)
Definition gt (a b : float) : bool := b <? a.
Definition lt (a b : float) : bool := a <? b.

(** ** Surface geometry: <canvas width={800} height={600}> *)

Definition canvas_width : float := 800.
Definition canvas_height : float := 600.
Definition paddleHeight : float := 100.
Definition paddleWidth : float := 10.

(** ** Game objects *)

Record Particle := mkParticle
  { p_x : float; p_y : float; p_dx : float; p_dy : float; p_life : float }.

Record Ball := mkBall
  { b_x : float; b_y : float; b_radius : float; b_dx : float; b_dy : float }.

Record Paddle := mkPaddle { pad_y : float; pad_speed : float }.

Record Keys := mkKeys
  { key_w : bool; key_s : bool; key_ArrowUp : bool; key_ArrowDown : bool }.

(** The locals of one run of the game-loop effect. *)
Record Loop := mkLoop
  { ball : Ball;
    paddle1 : Paddle;
    paddle2 : Paddle;
    keys : Keys;
    particles : list Particle }.

(** Values the effect gives its locals when it starts. *)
Definition init_ball : Ball :=
  mkBall (canvas_width / 2) (canvas_height / 2) 8 0.3 0.3.

Definition init_paddle : Paddle :=
  mkPaddle (canvas_height / 2 - paddleHeight / 2) 0.4.

Definition init_keys : Keys := mkKeys false false false false.

Definition init_loop : Loop :=
  mkLoop init_ball init_paddle init_paddle init_keys [].

(** ** What a frame asks of the outside *)

Inductive Sound := wallHitSound | paddleHitSound | scoreSound.

(** [AddPoint1] is [setScore(prev => ({...prev, player1: prev.player1 + 1}))],
    [AddPoint2] the same for [player2]. *)
Inductive Request :=
| PlaySound (s : Sound)
| AddPoint1
| AddPoint2.

(** ** Keyboard listeners of the loop *)

Local Open Scope string_scope.

Definition set_key (k : string) (v : bool) (ks : Keys) : Keys :=
  if String.eqb k "w" then mkKeys v (key_s ks) (key_ArrowUp ks) (key_ArrowDown ks)
  else if String.eqb k "s" then mkKeys (key_w ks) v (key_ArrowUp ks) (key_ArrowDown ks)
  else if String.eqb k "ArrowUp" then mkKeys (key_w ks) (key_s ks) v (key_ArrowDown ks)
  else if String.eqb k "ArrowDown" then mkKeys (key_w ks) (key_s ks) (key_ArrowUp ks) v
  else ks.

Local Close Scope string_scope.

Definition with_keys (ks : Keys) (l : Loop) : Loop :=
  mkLoop (ball l) (paddle1 l) (paddle2 l) ks (particles l).

(** ** Particles *)

Section Frame.

(** The results of this frame's calls to [Math.random()], in call order. *)
Variable random : nat -> float.

(** [createParticles(x, y, count)], started at draw number [r]; returns the
    extended collection and the next draw number. *)
Fixpoint createParticles (x y : float) (count : nat)
    (ps : list Particle) (r : nat) : list Particle * nat :=
  match count with
  | O => (ps, r)
  | S k =>
      let p := mkParticle x y ((random r - 0.5) * 0.2)
                              ((random (S r) - 0.5) * 0.2) 1 in
      createParticles x y k (ps ++ [p]) (S (S r))
  end.

(** The body of the [filter] callback before its [return]. *)
Definition age (p : Particle) : Particle :=
  mkParticle (p_x p + p_dx p) (p_y p + p_dy p) (p_dx p) (p_dy p)
             (p_life p - 0.005).

Definition alive (p : Particle) : bool := gt (p_life p) 0.

Definition updateParticles (ps : list Particle) : list Particle :=
  filter alive (map age ps).

(** ** One frame: [update()] *)

(** The state threaded through [update]: the locals, the number of random
    draws made so far and the requests issued so far. *)
Record Step := mkStep { cur : Loop; drawn : nat; out : list Request }.

Definition movePaddle (up down : bool) (p : Paddle) : Paddle :=
  let p1 := if up && gt (pad_y p) 0
            then mkPaddle (pad_y p - pad_speed p) (pad_speed p) else p in
  if down && lt (pad_y p1) (canvas_height - paddleHeight)
  then mkPaddle (pad_y p1 + pad_speed p1) (pad_speed p1) else p1.

Definition movePaddles (s : Step) : Step :=
  let l := cur s in
  let ks := keys l in
  mkStep (mkLoop (ball l)
                 (movePaddle (key_w ks) (key_s ks) (paddle1 l))
                 (movePaddle (key_ArrowUp ks) (key_ArrowDown ks) (paddle2 l))
                 ks (particles l))
         (drawn s) (out s).

Definition moveBall (s : Step) : Step :=
  let l := cur s in
  let b := ball l in
  mkStep (mkLoop (mkBall (b_x b + b_dx b) (b_y b + b_dy b) (b_radius b)
                         (b_dx b) (b_dy b))
                 (paddle1 l) (paddle2 l) (keys l) (particles l))
         (drawn s) (out s).

Definition hitsWall (b : Ball) : bool :=
  gt (b_y b + b_radius b) canvas_height || lt (b_y b - b_radius b) 0.

Definition wallCollision (s : Step) : Step :=
  let l := cur s in
  let b := ball l in
  if hitsWall b then
    let '(ps, r) := createParticles (b_x b) (b_y b) 10 (particles l) (drawn s) in
    mkStep (mkLoop (mkBall (b_x b) (b_y b) (b_radius b) (b_dx b) (- b_dy b))
                   (paddle1 l) (paddle2 l) (keys l) ps)
           r (out s ++ [PlaySound wallHitSound])
  else s.

Definition hitsPaddle (l : Loop) : bool :=
  let b := ball l in
  (lt (b_x b - b_radius b) paddleWidth
   && gt (b_y b) (pad_y (paddle1 l))
   && lt (b_y b) (pad_y (paddle1 l) + paddleHeight))
  || (gt (b_x b + b_radius b) (canvas_width - paddleWidth)
      && gt (b_y b) (pad_y (paddle2 l))
      && lt (b_y b) (pad_y (paddle2 l) + paddleHeight)).

Definition paddleCollision (s : Step) : Step :=
  let l := cur s in
  let b := ball l in
  if hitsPaddle l then
    let '(ps, r) := createParticles (b_x b) (b_y b) 15 (particles l) (drawn s) in
    mkStep (mkLoop (mkBall (b_x b) (b_y b) (b_radius b) (- b_dx b) (b_dy b))
                   (paddle1 l) (paddle2 l) (keys l) ps)
           r (out s ++ [PlaySound paddleHitSound])
  else s.

(** The two tests of "Score points". *)
Definition pastLeft (b : Ball) : bool := lt (b_x b + b_radius b) 0.
Definition pastRight (b : Ball) : bool := gt (b_x b - b_radius b) canvas_width.

Definition serve (dx : float) (b : Ball) : Ball :=
  mkBall (canvas_width / 2) (canvas_height / 2) (b_radius b) dx (b_dy b).

Definition scorePoints (s : Step) : Step :=
  let l := cur s in
  let b := ball l in
  if pastLeft b then
    mkStep (mkLoop (serve 0.3 b) (paddle1 l) (paddle2 l) (keys l) (particles l))
           (drawn s) (out s ++ [AddPoint2; PlaySound scoreSound])
  else if pastRight b then
    mkStep (mkLoop (serve (-0.3) b) (paddle1 l) (paddle2 l) (keys l) (particles l))
           (drawn s) (out s ++ [AddPoint1; PlaySound scoreSound])
  else s.

Definition agePhase (s : Step) : Step :=
  let l := cur s in
  mkStep (mkLoop (ball l) (paddle1 l) (paddle2 l) (keys l)
                 (updateParticles (particles l)))
         (drawn s) (out s).

Definition update_step (l : Loop) : Step :=
  agePhase (scorePoints (paddleCollision (wallCollision
    (moveBall (movePaddles (mkStep l 0 [])))))).

Definition update (l : Loop) : Loop * list Request :=
  let s := update_step l in (cur s, out s).

End Frame.

(** No random draws at all: enough for frames that spawn nothing. *)
Definition no_random : nat -> float := fun _ => 0.

(** ** Running the loop *)

(** What can happen to a running loop: an animation frame (with the random
    draws it will see) or a key going down or up. *)
Inductive LoopInput :=
| Tick (random : nat -> float)
| KeyDown (k : string)
| KeyUp (k : string).

Definition loop_input (i : LoopInput) (l : Loop) : Loop :=
  match i with
  | Tick random => fst (update random l)
  | KeyDown k => with_keys (set_key k true (keys l)) l
  | KeyUp k => with_keys (set_key k false (keys l)) l
  end.

Definition run_loop (ins : list LoopInput) (l : Loop) : Loop :=
  fold_left (fun acc i => loop_input i acc) ins l.

(** [n] frames in a row without any key event and without random draws
    that matter. *)
Fixpoint frames (n : nat) (l : Loop) : Loop :=
  match n with
  | O => l
  | S k => frames k (fst (update no_random l))
  end.

(** ** React state of the component *)

Local Close Scope float_scope.

Record Score := mkScore { player1 : nat; player2 : nat }.

Record GameSettings := mkSettings
  { theme : string;
    sfxVolume : nat;
    musicVolume : nat;
    sfxEnabled : bool;
    musicEnabled : bool }.

(** [score_id] stands for the identity of the [score] object: every
    [setScore] stores a fresh object, and the winner check depends on the
    object, not on its fields. *)
Record Session := mkSession
  { gameStarted : bool;
    gamePaused : bool;
    showControls : bool;
    showSettings : bool;
    showPauseMenu : bool;
    score : Score;
    score_id : nat;
    winner : option string;
    settings : GameSettings }.

Definition init_settings : GameSettings :=
  mkSettings "classic" 50 30 true true.

Definition init_session : Session :=
  mkSession false false false false false (mkScore 0 0) 0 None init_settings.

(** Setters, one per [useState] setter the handlers call. *)
Definition setGameStarted (v : bool) (s : Session) : Session :=
  mkSession v (gamePaused s) (showControls s) (showSettings s)
            (showPauseMenu s) (score s) (score_id s) (winner s) (settings s).

Definition setGamePaused (v : bool) (s : Session) : Session :=
  mkSession (gameStarted s) v (showControls s) (showSettings s)
            (showPauseMenu s) (score s) (score_id s) (winner s) (settings s).

Definition setShowControls (v : bool) (s : Session) : Session :=
  mkSession (gameStarted s) (gamePaused s) v (showSettings s)
            (showPauseMenu s) (score s) (score_id s) (winner s) (settings s).

Definition setShowSettings (v : bool) (s : Session) : Session :=
  mkSession (gameStarted s) (gamePaused s) (showControls s) v
            (showPauseMenu s) (score s) (score_id s) (winner s) (settings s).

Definition setShowPauseMenu (v : bool) (s : Session) : Session :=
  mkSession (gameStarted s) (gamePaused s) (showControls s) (showSettings s)
            v (score s) (score_id s) (winner s) (settings s).

Definition setScore (f : Score -> Score) (s : Session) : Session :=
  mkSession (gameStarted s) (gamePaused s) (showControls s) (showSettings s)
            (showPauseMenu s) (f (score s)) (S (score_id s)) (winner s)
            (settings s).

Definition setWinner (v : option string) (s : Session) : Session :=
  mkSession (gameStarted s) (gamePaused s) (showControls s) (showSettings s)
            (showPauseMenu s) (score s) (score_id s) v (settings s).

Definition setSettings (f : GameSettings -> GameSettings) (s : Session)
  : Session :=
  mkSession (gameStarted s) (gamePaused s) (showControls s) (showSettings s)
            (showPauseMenu s) (score s) (score_id s) (winner s)
            (f (settings s)).

(** *** Click handlers *)

Definition handleStart (s : Session) : Session :=
  if negb (gameStarted s) && negb (showControls s)
  then setShowControls true s
  else setShowPauseMenu false (setGamePaused false (setWinner None
         (setScore (fun _ => mkScore 0 0)
            (setShowControls false (setGameStarted true s))))).

Definition handleResume (s : Session) : Session :=
  setShowPauseMenu false (setGamePaused false s).

Definition handleQuit (s : Session) : Session :=
  setWinner None (setScore (fun _ => mkScore 0 0)
    (setShowPauseMenu false (setGamePaused false (setGameStarted false s)))).

(** The [Escape] branch of [handleKeyDown]. *)
Definition handleEscape (s : Session) : Session :=
  setShowPauseMenu true (setGamePaused true s).

(** What a frame's requests do to the React state: only [setScore] calls
    touch it. *)
Definition apply_request (s : Session) (r : Request) : Session :=
  match r with
  | PlaySound _ => s
  | AddPoint1 =>
      setScore (fun prev => mkScore (player1 prev + 1) (player2 prev)) s
  | AddPoint2 =>
      setScore (fun prev => mkScore (player1 prev) (player2 prev + 1)) s
  end.

Definition apply_requests (rs : list Request) (s : Session) : Session :=
  fold_left apply_request rs s.

(** ** Effects *)

(** Dependency array of the game-loop effect:
    [gameStarted, gamePaused, playSound, settings.theme, score.player1,
    score.player2].  [playSound] is a [useCallback] on [settings.sfxEnabled],
    so it changes exactly when that flag does. *)
Record LoopDeps := mkLoopDeps
  { d_started : bool; d_paused : bool; d_playSound : bool;
    d_theme : string; d_player1 : nat; d_player2 : nat }.

Definition loopDeps (s : Session) : LoopDeps :=
  mkLoopDeps (gameStarted s) (gamePaused s) (sfxEnabled (settings s))
             (theme (settings s)) (player1 (score s)) (player2 (score s)).

Definition loopDeps_eqb (a b : LoopDeps) : bool :=
  Bool.eqb (d_started a) (d_started b)
  && Bool.eqb (d_paused a) (d_paused b)
  && Bool.eqb (d_playSound a) (d_playSound b)
  && String.eqb (d_theme a) (d_theme b)
  && Nat.eqb (d_player1 a) (d_player1 b)
  && Nat.eqb (d_player2 a) (d_player2 b).

(** Dependency array of the winner check: [score, playSound]. *)
Definition WinDeps : Type := nat * bool.

Definition winDeps (s : Session) : WinDeps :=
  (score_id s, sfxEnabled (settings s)).

Definition winDeps_eqb (a b : WinDeps) : bool :=
  Nat.eqb (fst a) (fst b) && Bool.eqb (snd a) (snd b).

Definition same_deps {A} (eqb : A -> A -> bool) (old : option A) (new : A)
  : bool :=
  match old with
  | None => false
  | Some d => eqb d new
  end.

(** The component with its effects: the React state, the running loop (its
    locals, with a frame pending) if there is one, and the dependencies each
    effect last ran with ([None] before the first render). *)
Record World := mkWorld
  { react : Session;
    running : option Loop;
    loop_ran : option LoopDeps;
    winner_ran : option WinDeps }.

(** Body of the game-loop effect (the canvas is mounted, so both null checks
    pass): nothing when not playing; otherwise fresh locals and the first
    [gameLoop()] call, which runs [update] at once. *)
Definition gameLoopEffect (random : nat -> float) (s : Session)
  : option Loop * list Request :=
  if negb (gameStarted s) || gamePaused s then (None, [])
  else let '(l, rq) := update random init_loop in (Some l, rq).

(** Body of the winner check, as the state updates it queues. *)
Definition winnerEffect (s : Session) (pending : Session) : Session :=
  if 15 <=? player1 (score s)
  then setGameStarted false (setWinner (Some "Player 1"%string) pending)
  else if 15 <=? player2 (score s)
  then setGameStarted false (setWinner (Some "Player 2"%string) pending)
  else pending.

(** One render and commit: each effect whose dependencies changed is
    cleaned up and run again, in the order of declaration, against the
    rendered state; the state updates they queue are applied afterwards. *)
Definition commit (random : nat -> float) (w : World) : World :=
  let s := react w in
  let '(run, rq) :=
    if same_deps loopDeps_eqb (loop_ran w) (loopDeps s)
    then (running w, [])
    else gameLoopEffect random s in
  let s1 := apply_requests rq s in
  let s2 :=
    if same_deps winDeps_eqb (winner_ran w) (winDeps s)
    then s1 else winnerEffect s s1 in
  mkWorld s2 run (Some (loopDeps s)) (Some (winDeps s)).

(** Renders follow one another until nothing changes; two are always
    enough ([settle_stable] below). *)
Definition settle (random : nat -> float) (w : World) : World :=
  commit random (commit random w).

Definition mount : World :=
  settle no_random (mkWorld init_session None None None).

(** ** User and browser inputs *)

Inductive Input :=
| Frame
| PressKey (k : string)
| ReleaseKey (k : string)
| ClickPlay
| ClickPause
| ClickResume
| ClickSettings
| ClickCloseSettings
| ClickQuit
| PickTheme (t : string)
| SwitchSfx (b : bool)
| SwitchMusic (b : bool)
| SlideSfx (v : nat)
| SlideMusic (v : nat).

Definition with_react (s : Session) (w : World) : World :=
  mkWorld s (running w) (loop_ran w) (winner_ran w).

Definition with_running (l : option Loop) (w : World) : World :=
  mkWorld (react w) l (loop_ran w) (winner_ran w).

(** The handler an input reaches.  A control that is not rendered cannot be
    clicked; the key listeners and the frame callback exist only while a loop
    runs. *)
Definition handle (random : nat -> float) (i : Input) (w : World) : World :=
  let s := react w in
  match i with
  | Frame =>
      match running w with
      | Some l =>
          let '(l', rq) := update random l in
          with_running (Some l') (with_react (apply_requests rq s) w)
      | None => w
      end
  | PressKey k =>
      match running w with
      | Some l =>
          if String.eqb k "Escape" then with_react (handleEscape s) w
          else with_running (Some (with_keys (set_key k true (keys l)) l)) w
      | None => w
      end
  | ReleaseKey k =>
      match running w with
      | Some l => with_running (Some (with_keys (set_key k false (keys l)) l)) w
      | None => w
      end
  | ClickPlay =>
      if (negb (gameStarted s) && negb (showSettings s))
         || match winner s with Some _ => true | None => false end
      then with_react (handleStart s) w else w
  | ClickPause =>
      if gameStarted s && negb (showPauseMenu s)
      then with_react (setShowPauseMenu true s) w else w
  | ClickResume =>
      if showPauseMenu s then with_react (handleResume s) w else w
  | ClickSettings =>
      if showPauseMenu s then with_react (setShowSettings true s) w else w
  | ClickQuit =>
      if showPauseMenu s then with_react (handleQuit s) w else w
  | ClickCloseSettings =>
      if showSettings s then with_react (setShowSettings false s) w else w
  | PickTheme t =>
      if showSettings s
      then with_react (setSettings (fun p =>
             mkSettings t (sfxVolume p) (musicVolume p) (sfxEnabled p)
                        (musicEnabled p)) s) w
      else w
  | SwitchSfx b =>
      if showSettings s
      then with_react (setSettings (fun p =>
             mkSettings (theme p) (sfxVolume p) (musicVolume p) b
                        (musicEnabled p)) s) w
      else w
  | SwitchMusic b =>
      if showSettings s
      then with_react (setSettings (fun p =>
             mkSettings (theme p) (sfxVolume p) (musicVolume p) (sfxEnabled p)
                        b) s) w
      else w
  | SlideSfx v =>
      if showSettings s && sfxEnabled (settings s)
      then with_react (setSettings (fun p =>
             mkSettings (theme p) v (musicVolume p) (sfxEnabled p)
                        (musicEnabled p)) s) w
      else w
  | SlideMusic v =>
      if showSettings s && musicEnabled (settings s)
      then with_react (setSettings (fun p =>
             mkSettings (theme p) (sfxVolume p) v (sfxEnabled p)
                        (musicEnabled p)) s) w
      else w
  end.

(** An input, its handler, and the renders that follow. *)
Definition step (random : nat -> float) (i : Input) (w : World) : World :=
  settle random (handle random i w).

Definition play (ins : list Input) (w : World) : World :=
  fold_left (fun acc i => step no_random i acc) ins w.

(** ** The frame, phase by phase

    The same computation as [update], written as what each phase leaves
    behind; [update_eq] below proves the two agree. *)

Local Open Scope float_scope.

(** "Move ball". *)
Definition moved (b : Ball) : Ball :=
  mkBall (b_x b + b_dx b) (b_y b + b_dy b) (b_radius b) (b_dx b) (b_dy b).

Definition flipY (b : Ball) : Ball :=
  mkBall (b_x b) (b_y b) (b_radius b) (b_dx b) (- b_dy b).

Definition flipX (b : Ball) : Ball :=
  mkBall (b_x b) (b_y b) (b_radius b) (- b_dx b) (b_dy b).

(** Does this frame's move take the ball past the top or bottom edge? *)
Definition wallHit (l : Loop) : bool := hitsWall (moved (ball l)).

Definition afterWall (l : Loop) : Ball :=
  if wallHit l then flipY (moved (ball l)) else moved (ball l).

Definition paddlesMoved (l : Loop) : Paddle * Paddle :=
  (movePaddle (key_w (keys l)) (key_s (keys l)) (paddle1 l),
   movePaddle (key_ArrowUp (keys l)) (key_ArrowDown (keys l)) (paddle2 l)).

(** Does the moved ball overlap a (moved) paddle? *)
Definition paddleHit (l : Loop) : bool :=
  hitsPaddle (mkLoop (afterWall l) (fst (paddlesMoved l))
                     (snd (paddlesMoved l)) (keys l) []).

Definition afterPaddle (l : Loop) : Ball :=
  if paddleHit l then flipX (afterWall l) else afterWall l.

Definition afterScore (l : Loop) : Ball :=
  let b := afterPaddle l in
  if pastLeft b then serve 0.3 b
  else if pastRight b then serve (-0.3) b
  else b.

(** The particles one [createParticles] call appends. *)
Fixpoint burst (random : nat -> float) (x y : float) (count r : nat)
  : list Particle :=
  match count with
  | O => []
  | S k => mkParticle x y ((random r - 0.5) * 0.2)
                          ((random (S r) - 0.5) * 0.2) 1
           :: burst random x y k (S (S r))
  end.

(** The collection just before "Update particles". *)
Definition spawned (random : nat -> float) (l : Loop) : list Particle :=
  let b := moved (ball l) in
  particles l
  ++ (if wallHit l then burst random (b_x b) (b_y b) 10 0 else [])
  ++ (if paddleHit l
      then burst random (b_x b) (b_y b) 15 (if wallHit l then 20 else 0)
      else []).

Definition requests (l : Loop) : list Request :=
  (if wallHit l then [PlaySound wallHitSound] else [])
  ++ (if paddleHit l then [PlaySound paddleHitSound] else [])
  ++ (if pastLeft (moved (ball l)) then [AddPoint2; PlaySound scoreSound]
      else if pastRight (moved (ball l)) then [AddPoint1; PlaySound scoreSound]
      else []).

Local Close Scope float_scope.

(** ** Vocabulary of the properties *)

Local Open Scope float_scope.

(** Both velocity components have the magnitude the ball starts with. *)
Definition vel_ok (b : Ball) : Prop :=
  (b_dx b = 0.3 \/ b_dx b = -0.3) /\ (b_dy b = 0.3 \/ b_dy b = -0.3).

(** Number of points a frame's requests award. *)
Fixpoint scored (rq : list Request) : nat :=
  match rq with
  | [] => 0
  | AddPoint1 :: t | AddPoint2 :: t => S (scored t)
  | PlaySound _ :: t => scored t
  end.

(** The edge of the ball that faces its direction of travel is beyond the
    left (moving left) or right (moving right) boundary. *)
Definition leadingEdgePast (b : Ball) : bool :=
  if lt (b_dx b) 0 then lt (b_x b - b_radius b) 0
  else gt (b_x b + b_radius b) canvas_width.


Local Close Scope float_scope.

(** ** The ball's vertical motion on its own

    Whether the ball touches the top or bottom edge depends only on its
    vertical position and velocity (and the radius 8), and a frame changes
    those two by [ystep], or puts the position back to the centre when a
    point is awarded.  The vertical state therefore runs through two orbits,
    one from each serve direction, and both close into the same cycle of
    3896 frames. *)

Local Open Scope float_scope.

Definition vert (b : Ball) : float * float := (b_y b, b_dy b).

Definition ywall (v : float * float) : bool :=
  let y1 := fst v + snd v in
  gt (y1 + 8) canvas_height || lt (y1 - 8) 0.

Definition ystep (v : float * float) : float * float :=
  (fst v + snd v, if ywall v then - snd v else snd v).

Fixpoint yiter (n : nat) (v : float * float) : float * float :=
  match n with
  | O => v
  | S k => yiter k (ystep v)
  end.

Definition serve_down : float * float := (canvas_height / 2, 0.3).
Definition serve_up : float * float := (canvas_height / 2, -0.3).

Definition yreach (v : float * float) : Prop :=
  exists n, v = yiter n serve_down \/ v = yiter n serve_up.

(** A touch lasts one frame: no wall hit directly after a wall hit. *)
Definition single_touch (v : float * float) : bool :=
  negb (ywall v) || negb (ywall (ystep v)).

(** [check_orbit p n v]: [p] holds at the first [n] states from [v]. *)
Fixpoint check_orbit (p : float * float -> bool) (n : nat)
    (v : float * float) : bool :=
  match n with
  | O => true
  | S k => p v && check_orbit p k (ystep v)
  end.

(** Number of [PlaySound s] among a frame's requests. *)
Fixpoint sounds (s : Sound) (rq : list Request) : nat :=
  match rq with
  | [] => 0
  | PlaySound s' :: t =>
      (match s, s' with
       | wallHitSound, wallHitSound
       | paddleHitSound, paddleHitSound
       | scoreSound, scoreSound => 1
       | _, _ => 0
       end) + sounds s t
  | _ :: t => sounds s t
  end.

Local Close Scope float_scope.

(** ** Particle lives *)

Local Open Scope float_scope.

(** The life of a particle that has been aged [k] times. *)
Fixpoint life_at (k : nat) : float :=
  match k with
  | O => 1
  | S j => life_at j - 0.005
  end.

(** A particle in the collection has been aged at most 199 times. *)
Definition life_ok (p : Particle) : Prop :=
  exists k, k <= 199 /\ p_life p = life_at k.

(** What [life_ok] rests on, as a check of the 200 lives that occur: each is
    in (0, 1], the next one is strictly smaller, and it is still positive
    exactly when it is not the 200th. *)
Definition life_check (k : nat) : bool :=
  gt (life_at k) 0 && (life_at k <=? 1)
  && lt (life_at (S k)) (life_at k)
  && Bool.eqb (gt (life_at (S k)) 0) (negb (Nat.eqb (S k) 200))
  && Bool.eqb (life_at (S k) <=? 0) (negb (gt (life_at (S k)) 0)).

Local Close Scope float_scope.

(** ** Worlds that can arise *)

Definition steps (tr : list ((nat -> float) * Input)) (w : World) : World :=
  fold_left (fun acc ri => step (fst ri) (snd ri) acc) tr w.

Inductive reachable : World -> Prop :=
| reach_mount : reachable mount
| reach_step random i w : reachable w -> reachable (step random i w).

(** A loop runs exactly when the game-loop effect last ran while playing. *)
Definition coherent (w : World) : Prop :=
  exists d, loop_ran w = Some d
    /\ (running w = None <-> d_started d && negb (d_paused d) = false).

(** Every effect has run against the current state. *)
Definition settled (w : World) : Prop :=
  coherent w
  /\ loop_ran w = Some (loopDeps (react w))
  /\ winner_ran w = Some (winDeps (react w)).

(** Inputs that do not end a pause: everything but the Resume, Quit and
    Play buttons. *)
Definition stays_paused (i : Input) : bool :=
  match i with
  | ClickResume | ClickQuit | ClickPlay => false
  | _ => true
  end.

(** A paused game in progress: the pause menu is up, [gamePaused] is set
    and neither counter has reached 15. *)
Definition paused (w : World) : Prop :=
  settled w
  /\ gameStarted (react w) = true
  /\ gamePaused (react w) = true
  /\ showPauseMenu (react w) = true
  /\ player1 (score (react w)) < 15
  /\ player2 (score (react w)) < 15.

(** ** Sample sessions *)

(** Play is clicked twice (controls, then start) and [n] frames follow
    without any key: the ball leaves on the right every 1360 frames. *)
Definition idle_match (n : nat) : World :=
  play (ClickPlay :: ClickPlay :: repeat Frame n) mount.

(** A game three frames in, with [s] held by player 1. *)
Definition in_play : World :=
  play [ClickPlay; ClickPlay; PressKey "s"; Frame; Frame; Frame] mount.

(** A busy first point.  Player 1 holds [s] throughout; player 2 moves down
    for 375 frames, waits, and moves up from frame 1283 on, so that the ball
    is caught inside the right paddle's band for a few frames and then let
    through.  When the ball leaves on the right, in the frame after these
    inputs, both paddles are off centre, two keys are held and 90 particles
    are alive. *)
Definition busy_point : World :=
  play ([ClickPlay; ClickPlay; PressKey "s"; PressKey "ArrowDown"]
        ++ repeat Frame 375 ++ [ReleaseKey "ArrowDown"]
        ++ repeat Frame 907 ++ [PressKey "ArrowUp"] ++ repeat Frame 83) mount.

(** The loop running in [busy_point]. *)
Definition busy_loop : Loop :=
  run_loop ([Tick no_random; KeyDown "s"; KeyDown "ArrowDown"]
            ++ repeat (Tick no_random) 375 ++ [KeyUp "ArrowDown"]
            ++ repeat (Tick no_random) 907 ++ [KeyDown "ArrowUp"]
            ++ repeat (Tick no_random) 83) init_loop.

(** ** Vocabulary of the further properties *)

Local Open Scope float_scope.


(** [n] calls of [updateParticles] in a row. *)
Fixpoint advance (n : nat) (ps : list Particle) : list Particle :=
  match n with
  | O => ps
  | S k => advance k (updateParticles ps)
  end.

(** The ball's top and bottom edges are never further out than one
    frame's travel. *)
Definition near_surface (v : float * float) : bool :=
  (-0.3 <=? fst v - 8) && (fst v + 8 <=? 600.3).

Local Close Scope float_scope.

(** Particles grouped by age: [a] groups, the first aged [a] times, the
    last once, each of at most 25 particles (one frame's bursts). *)
Fixpoint aged_groups (a : nat) (gs : list (list Particle)) : Prop :=
  match a, gs with
  | O, [] => True
  | S a', g :: gs' =>
      List.length g <= 25
      /\ Forall (fun p => p_life p = life_at (S a')) g
      /\ aged_groups a' gs'
  | _, _ => False
  end.

(** ** Vocabulary of the session properties *)

(** Inputs that only change what is shown or how loud it is. *)
Definition ui_only (i : Input) : bool :=
  match i with
  | ClickPause | ClickSettings | ClickCloseSettings
  | SwitchMusic _ | SlideSfx _ | SlideMusic _ => true
  | _ => false
  end.

(** Inputs that reach the loop's own callbacks. *)
Definition loop_bound (i : Input) : bool :=
  match i with
  | Frame | PressKey _ | ReleaseKey _ => true
  | _ => false
  end.

(** Counters and winner agree: no winner and both counters below 15, or a
    stopped game whose winner is the one counter at 15. *)
Definition score_ok (s : Session) : Prop :=
  (winner s = None
   /\ player1 (score s) < 15 /\ player2 (score s) < 15)
  \/ (winner s = Some "Player 1"%string /\ gameStarted s = false
      /\ player1 (score s) = 15 /\ player2 (score s) < 15)
  \/ (winner s = Some "Player 2"%string /\ gameStarted s = false
      /\ player2 (score s) = 15 /\ player1 (score s) < 15).

(** A running loop, if any, is one that inputs can produce from the
    initial values. *)
Definition loop_reachable (o : option Loop) : Prop :=
  match o with
  | None => True
  | Some l => exists ins, l = run_loop ins init_loop
  end.

(** ** Audio: [updateVolumes] and the music effect *)

Local Open Scope float_scope.

(** The JavaScript number with the value of a counter (exact below 2^53). *)
Fixpoint number_of_nat (n : nat) : float :=
  match n with
  | O => 0
  | S k => number_of_nat k + 1
  end.

(** The [volume] property of the music element and of the three effect
    elements (which always get the same value). *)
Record Volumes := mkVolumes { music_volume : float; sfx_volume : float }.

Definition updateVolumes (st : GameSettings) : Volumes :=
  mkVolumes
    (if musicEnabled st then number_of_nat (musicVolume st) / 100 else 0)
    (if sfxEnabled st then number_of_nat (sfxVolume st) / 100 else 0).

(** "Handle music": the background music is playing after this effect
    exactly when its condition holds. *)
Definition musicPlaying (s : Session) : bool :=
  gameStarted s && negb (gamePaused s) && musicEnabled (settings s).

(** A volume the audio element accepts. *)
Definition volume_ok (v : float) : bool := (0 <=? v) && (v <=? 1).

Local Close Scope float_scope.

(** ** The ball's horizontal motion after a serve *)

Local Open Scope float_scope.

(** Number of frames among the inputs. *)
Fixpoint ticks (ins : list LoopInput) : nat :=
  match ins with
  | [] => 0
  | Tick _ :: t => S (ticks t)
  | _ :: t => ticks t
  end.

(** The position [k] moves to the right of [x]. *)
Fixpoint x_after (k : nat) (x : float) : float :=
  match k with
  | O => x
  | S j => x_after j (x + 0.3)
  end.

(** At horizontal position [x] (radius 8) the ball is clear of both paddle
    bands and of both scoring tests. *)
Definition clear_of_ends (x : float) : bool :=
  negb (lt (x - 8) paddleWidth)
  && negb (gt (x + 8) (canvas_width - paddleWidth))
  && negb (lt (x + 8) 0)
  && negb (gt (x - 8) canvas_width).

Fixpoint clear_run (n : nat) (x : float) : bool :=
  match n with
  | O => true
  | S k => clear_of_ends x && clear_run k (x + 0.3)
  end.

Local Close Scope float_scope.

(** * Verified properties *)

(** ** [update], phase by phase *)

Lemma createParticles_burst random x y count : forall ps r,
  createParticles random x y count ps r
  = (ps ++ burst random x y count r, r + 2 * count).
Proof.
  induction count as [|k IH]; intros ps r; cbn [createParticles burst].
  - now rewrite app_nil_r, Nat.add_0_r.
  - rewrite IH, <- app_assoc. cbn [app]. f_equal. lia.
Qed.

Lemma afterWall_pos l :
  b_x (afterWall l) = b_x (moved (ball l))
  /\ b_y (afterWall l) = b_y (moved (ball l))
  /\ b_radius (afterWall l) = b_radius (ball l).
Proof. unfold afterWall. destruct (wallHit l); repeat split. Qed.

Lemma afterPaddle_pos l :
  b_x (afterPaddle l) = b_x (moved (ball l))
  /\ b_y (afterPaddle l) = b_y (moved (ball l))
  /\ b_radius (afterPaddle l) = b_radius (ball l).
Proof.
  unfold afterPaddle. destruct (afterWall_pos l) as (X & Y & R).
  destruct (paddleHit l); cbn [flipX b_x b_y b_radius]; auto.
Qed.

Lemma pastLeft_afterPaddle_gen l (c : bool) :
  pastLeft (if c then flipX (afterWall l) else afterWall l)
  = pastLeft (moved (ball l)).
Proof.
  unfold pastLeft. destruct (afterWall_pos l) as (X & _ & R).
  destruct c; cbn [flipX b_x b_radius]; now rewrite X, R.
Qed.

Lemma pastRight_afterPaddle_gen l (c : bool) :
  pastRight (if c then flipX (afterWall l) else afterWall l)
  = pastRight (moved (ball l)).
Proof.
  unfold pastRight. destruct (afterWall_pos l) as (X & _ & R).
  destruct c; cbn [flipX b_x b_radius]; now rewrite X, R.
Qed.

Lemma pastLeft_afterPaddle l :
  pastLeft (afterPaddle l) = pastLeft (moved (ball l)).
Proof.
  unfold pastLeft. destruct (afterPaddle_pos l) as (X & _ & R).
  now rewrite X, R.
Qed.

Lemma pastRight_afterPaddle l :
  pastRight (afterPaddle l) = pastRight (moved (ball l)).
Proof.
  unfold pastRight. destruct (afterPaddle_pos l) as (X & _ & R).
  now rewrite X, R.
Qed.

Lemma wallCollision_eq random b p1 p2 ks ps r o :
  wallCollision random (mkStep (mkLoop b p1 p2 ks ps) r o)
  = mkStep (mkLoop (if hitsWall b then flipY b else b) p1 p2 ks
                   (ps ++ if hitsWall b
                          then burst random (b_x b) (b_y b) 10 r else []))
           (if hitsWall b then r + 20 else r)
           (o ++ if hitsWall b then [PlaySound wallHitSound] else []).
Proof.
  unfold wallCollision. cbn [cur drawn out ball paddle1 paddle2 keys particles].
  destruct (hitsWall b).
  - rewrite createParticles_burst. reflexivity.
  - now rewrite !app_nil_r.
Qed.

Lemma paddleCollision_eq random b p1 p2 ks ps r o :
  let hit := hitsPaddle (mkLoop b p1 p2 ks []) in
  paddleCollision random (mkStep (mkLoop b p1 p2 ks ps) r o)
  = mkStep (mkLoop (if hit then flipX b else b) p1 p2 ks
                   (ps ++ if hit
                          then burst random (b_x b) (b_y b) 15 r else []))
           (if hit then r + 30 else r)
           (o ++ if hit then [PlaySound paddleHitSound] else []).
Proof.
  intros hit. unfold paddleCollision.
  change (hitsPaddle (cur (mkStep (mkLoop b p1 p2 ks ps) r o))) with hit.
  cbn [cur drawn out ball paddle1 paddle2 keys particles].
  destruct hit.
  - rewrite createParticles_burst. reflexivity.
  - now rewrite !app_nil_r.
Qed.

Lemma scorePoints_eq b p1 p2 ks ps r o :
  scorePoints (mkStep (mkLoop b p1 p2 ks ps) r o)
  = mkStep (mkLoop (if pastLeft b then serve 0.3 b
                    else if pastRight b then serve (-0.3) b else b)
                   p1 p2 ks ps)
           r
           (o ++ if pastLeft b then [AddPoint2; PlaySound scoreSound]
                 else if pastRight b then [AddPoint1; PlaySound scoreSound]
                 else []).
Proof.
  unfold scorePoints. cbn [cur drawn out ball paddle1 paddle2 keys particles].
  destruct (pastLeft b); [reflexivity|].
  destruct (pastRight b); [reflexivity|]. now rewrite app_nil_r.
Qed.

Lemma update_eq random l :
  update random l
  = (mkLoop (afterScore l) (fst (paddlesMoved l)) (snd (paddlesMoved l))
            (keys l) (updateParticles (spawned random l)),
     requests l).
Proof.
  unfold update, update_step, movePaddles, moveBall.
  cbn [cur drawn out ball paddle1 paddle2 keys particles].
  fold (moved (ball l)).
  rewrite wallCollision_eq, paddleCollision_eq, scorePoints_eq.
  unfold agePhase. cbn [cur drawn out ball paddle1 paddle2 keys particles].
  unfold afterScore, requests, spawned.
  rewrite pastLeft_afterPaddle, pastRight_afterPaddle.
  unfold afterPaddle, paddleHit, paddlesMoved. cbn [fst snd].
  fold (wallHit l). fold (afterWall l).
  rewrite pastLeft_afterPaddle_gen, pastRight_afterPaddle_gen.
  destruct (afterWall_pos l) as (X & Y & _).
  unfold wallHit at 2 3. rewrite X, Y.
  rewrite <- !app_assoc. reflexivity.
Qed.

Lemma update_ball random l : ball (fst (update random l)) = afterScore l.
Proof. now rewrite update_eq. Qed.

Lemma update_requests random l : snd (update random l) = requests l.
Proof. now rewrite update_eq. Qed.

Lemma update_particles random l :
  particles (fst (update random l)) = updateParticles (spawned random l).
Proof. now rewrite update_eq. Qed.


Lemma update_paddles random l :
  paddle1 (fst (update random l)) = fst (paddlesMoved l)
  /\ paddle2 (fst (update random l)) = snd (paddlesMoved l).
Proof. now rewrite update_eq. Qed.

(** The velocity a frame leaves, case by case. *)
Lemma afterScore_velocity l :
  b_dx (afterScore l)
  = (if pastLeft (moved (ball l)) then 0.3
     else if pastRight (moved (ball l)) then -0.3
     else if paddleHit l then - b_dx (ball l) else b_dx (ball l))%float
  /\ b_dy (afterScore l)
     = (if wallHit l then - b_dy (ball l) else b_dy (ball l))%float.
Proof.
  unfold afterScore.
  rewrite pastLeft_afterPaddle, pastRight_afterPaddle.
  unfold afterPaddle, afterWall.
  destruct (pastLeft _); [|destruct (pastRight _)];
    destruct (paddleHit l); destruct (wallHit l); split; reflexivity.
Qed.

Lemma afterScore_radius l : b_radius (afterScore l) = b_radius (ball l).
Proof.
  unfold afterScore. destruct (afterPaddle_pos l) as (_ & _ & R).
  destruct (pastLeft _); [|destruct (pastRight _)]; cbn [serve b_radius]; auto.
Qed.

Lemma vel_ok_afterScore l : vel_ok (ball l) -> vel_ok (afterScore l).
Proof.
  intros [Hx Hy]. destruct (afterScore_velocity l) as [Ex Ey].
  unfold vel_ok. rewrite Ex, Ey. split.
  - destruct (pastLeft _); [now left|].
    destruct (pastRight _); [now right|].
    destruct (paddleHit l); [|assumption].
    destruct Hx as [-> | ->]; [right | left]; reflexivity.
  - destruct (wallHit l); [|assumption].
    destruct Hy as [-> | ->]; [right | left]; reflexivity.
Qed.

(** ** Loops that can arise: induction over the inputs *)

Lemma run_loop_snoc ins i l :
  run_loop (ins ++ [i]) l = loop_input i (run_loop ins l).
Proof. unfold run_loop. now rewrite fold_left_app. Qed.

Lemma run_loop_ind (P : Loop -> Prop) :
  P init_loop ->
  (forall random l, P l -> P (fst (update random l))) ->
  (forall ks l, P l -> P (with_keys ks l)) ->
  forall ins, P (run_loop ins init_loop).
Proof.
  intros H0 Hu Hk ins. induction ins as [|i ins IH] using rev_ind.
  - exact H0.
  - rewrite run_loop_snoc. destruct i; cbn [loop_input]; auto.
Qed.

Lemma run_loop_vel_ok ins : vel_ok (ball (run_loop ins init_loop)).
Proof.
  apply run_loop_ind.
  - split; left; reflexivity.
  - intros random l H. rewrite update_ball. now apply vel_ok_afterScore.
  - intros ks l H. exact H.
Qed.

Lemma run_loop_radius ins : b_radius (ball (run_loop ins init_loop)) = 8%float.
Proof.
  apply run_loop_ind.
  - reflexivity.
  - intros random l H. now rewrite update_ball, afterScore_radius.
  - intros ks l H. exact H.
Qed.

Lemma vel_ok_abs b :
  vel_ok b -> abs (b_dx b) = 0.3%float /\ abs (b_dy b) = 0.3%float.
Proof. intros [[-> | ->] [-> | ->]]; split; reflexivity. Qed.

(** C10. In every frame the horizontal velocity is kept, negated by a
    paddle hit, or set to the serve speed 0.3 / -0.3 by a point; the vertical
    velocity is kept or negated by a wall hit.  So from the start of a loop
    on, whatever the inputs, both components keep the magnitude 0.3 they start
    with. *)
Theorem speed_magnitude_constant (ins : list LoopInput) (random : nat -> float) :
  let l := run_loop ins init_loop in
  let l' := fst (update random l) in
  b_dx (ball l')
  = (if pastLeft (moved (ball l)) then 0.3
     else if pastRight (moved (ball l)) then -0.3
     else if paddleHit l then - b_dx (ball l) else b_dx (ball l))%float
  /\ b_dy (ball l')
     = (if wallHit l then - b_dy (ball l) else b_dy (ball l))%float
  /\ abs (b_dx (ball l)) = 0.3%float /\ abs (b_dy (ball l)) = 0.3%float
  /\ abs (b_dx (ball l')) = 0.3%float /\ abs (b_dy (ball l')) = 0.3%float.
Proof.
  intros l l'. subst l'. rewrite update_ball.
  destruct (afterScore_velocity l) as [Ex Ey].
  pose proof (run_loop_vel_ok ins) as V. fold l in V.
  destruct (vel_ok_abs _ V) as [A1 A2].
  destruct (vel_ok_abs _ (vel_ok_afterScore l V)) as [A3 A4].
  repeat split; assumption.
Qed.

(** ** Scoring crossings *)

Lemma scored_app a b : scored (a ++ b) = scored a + scored b.
Proof.
  induction a as [|r a IH]; [reflexivity|].
  destruct r; cbn [app scored]; rewrite IH; reflexivity.
Qed.

Lemma scored_requests l :
  scored (requests l)
  = if pastLeft (moved (ball l)) then 1
    else if pastRight (moved (ball l)) then 1 else 0.
Proof.
  unfold requests. rewrite !scored_app.
  destruct (wallHit l); destruct (paddleHit l);
    destruct (pastLeft _); try reflexivity;
    destruct (pastRight _); reflexivity.
Qed.

Lemma sound_not_point (c : bool) (s : Sound) (p : Request) :
  scored [p] = 1 -> ~ In p (if c then [PlaySound s] else []).
Proof.
  destruct c; cbn; [intros E [H|[]]; subst p; discriminate | intros _ []].
Qed.

Lemma AddPoint2_requests l :
  In AddPoint2 (requests l) <-> pastLeft (moved (ball l)) = true.
Proof.
  unfold requests. rewrite !in_app_iff.
  pose proof (sound_not_point (wallHit l) wallHitSound AddPoint2 eq_refl) as N1.
  pose proof (sound_not_point (paddleHit l) paddleHitSound AddPoint2 eq_refl)
    as N2.
  destruct (pastLeft (moved (ball l))).
  - split; [reflexivity|]. intros _. right. right. now left.
  - split; [|discriminate]. intros [H|[H|H]]; [easy | easy |].
    destruct (pastRight (moved (ball l))); cbn in H;
      repeat (destruct H as [H|H]; try discriminate H); contradiction.
Qed.

Lemma AddPoint1_requests l :
  In AddPoint1 (requests l)
  <-> pastLeft (moved (ball l)) = false /\ pastRight (moved (ball l)) = true.
Proof.
  unfold requests. rewrite !in_app_iff.
  pose proof (sound_not_point (wallHit l) wallHitSound AddPoint1 eq_refl) as N1.
  pose proof (sound_not_point (paddleHit l) paddleHitSound AddPoint1 eq_refl)
    as N2.
  destruct (pastLeft (moved (ball l))).
  - split; [|intros [H _]; discriminate]. intros [H|[H|H]]; [easy | easy |].
    cbn in H. repeat (destruct H as [H|H]; try discriminate H); contradiction.
  - destruct (pastRight (moved (ball l))).
    + split; [now split|]. intros _. right. right. now left.
    + split; [|intros [_ H]; discriminate]. intros [H|[H|H]]; easy.
Qed.

(** C2, as the code has it. A point is awarded exactly when, after this
    frame's move, the ball's far edge is beyond the boundary: x + radius < 0
    on the left (player 2 scores), x - radius > width on the right (player 1
    scores), that is when the whole ball has left the surface.  On such a
    frame the horizontal velocity is not negated by the crossing but set to
    the serve speed. *)
Theorem crossing_is_whole_ball_out (random : nat -> float) (l : Loop) :
  let b := moved (ball l) in
  let rq := snd (update random l) in
  let l' := fst (update random l) in
  (In AddPoint2 rq <-> lt (b_x b + b_radius b) 0 = true)
  /\ (In AddPoint1 rq <->
      lt (b_x b + b_radius b) 0 = false
      /\ gt (b_x b - b_radius b) canvas_width = true)
  /\ (In AddPoint2 rq -> b_dx (ball l') = 0.3%float)
  /\ (In AddPoint1 rq -> b_dx (ball l') = (-0.3)%float)
  /\ (scored rq = 0 -> b_x (ball l') = b_x b)
  /\ (scored rq = 0 ->
      b_dx (ball l')
      = if paddleHit l then (- b_dx (ball l))%float else b_dx (ball l)).
Proof.
  intros b rq l'. subst b rq l'.
  rewrite update_requests, update_ball.
  destruct (afterScore_velocity l) as [Ex _].
  split; [apply AddPoint2_requests|].
  split; [apply AddPoint1_requests|].
  split; [|split; [|split]].
  - intros H. apply AddPoint2_requests in H. now rewrite Ex, H.
  - intros H. apply AddPoint1_requests in H. destruct H as [H1 H2].
    now rewrite Ex, H1, H2.
  - intros H. rewrite scored_requests in H. unfold afterScore.
    rewrite pastLeft_afterPaddle, pastRight_afterPaddle.
    destruct (pastLeft _); [discriminate|].
    destruct (pastRight _); [discriminate|].
    apply afterPaddle_pos.
  - intros H. rewrite scored_requests in H. rewrite Ex.
    destruct (pastLeft _); [discriminate|].
    destruct (pastRight _); [discriminate|]. reflexivity.
Qed.

(** C2, as stated, fails: 1310 frames into a loop without any key pressed
    the ball travels right and its leading edge x + radius is beyond the
    right boundary (801.3 > 800), yet the frame awards no point and issues no
    request at all. *)
Lemma leading_edge_out_no_point :
  let l := frames 1310 init_loop in
  lt (b_dx (moved (ball l))) 0 = false
  /\ gt (b_x (moved (ball l)) + b_radius (moved (ball l))) canvas_width = true
  /\ leadingEdgePast (moved (ball l)) = true
  /\ snd (update no_random l) = [].
Proof. vm_compute. repeat split. Qed.

(** *** The serve *)

(** C3, as the code has it. A frame that awards a point puts the ball at the
    centre (400, 300).  After a left crossing (player 2 scores) the horizontal
    velocity is +0.3, after a right crossing (player 1 scores) it is -0.3: the
    ball heads away from the boundary it just crossed.  The vertical velocity
    is not reset: it is what the wall check of this frame left. *)
Theorem serve_after_crossing (random : nat -> float) (l : Loop)
    (H : scored (snd (update random l)) = 1) :
  let rq := snd (update random l) in
  let b' := ball (fst (update random l)) in
  b_x b' = 400%float /\ b_y b' = 300%float
  /\ ((In AddPoint2 rq /\ pastLeft (moved (ball l)) = true
       /\ b_dx b' = 0.3%float)
      \/ (In AddPoint1 rq /\ pastRight (moved (ball l)) = true
          /\ b_dx b' = (-0.3)%float))
  /\ b_dy b' = (if wallHit l then - b_dy (ball l) else b_dy (ball l))%float.
Proof.
  intros rq b'. subst rq b'. revert H.
  rewrite update_requests, update_ball, scored_requests.
  destruct (afterScore_velocity l) as [Ex Ey]. rewrite Ex, Ey.
  pose proof (AddPoint2_requests l) as A2.
  pose proof (AddPoint1_requests l) as A1.
  unfold afterScore. rewrite pastLeft_afterPaddle, pastRight_afterPaddle.
  destruct (pastLeft (moved (ball l))) eqn:L.
  - intros _. repeat split. left. repeat split. now apply A2.
  - destruct (pastRight (moved (ball l))) eqn:R; [|discriminate].
    intros _. repeat split. right. repeat split. apply A1. now split.
Qed.

Lemma serve_after_crossing_witness :
  scored (snd (update no_random (frames 1360 init_loop))) = 1
  /\ b_x (ball (fst (update no_random (frames 1360 init_loop)))) = 400%float.
Proof.
  split; [vm_compute; reflexivity|].
  apply (serve_after_crossing no_random (frames 1360 init_loop)).
  vm_compute. reflexivity.
Defined.

(** C3, as stated, fails: without any key pressed the ball first leaves on
    the right in frame 1361, so player 1 scores against the right side.  The
    ball is served from (400, 300) with horizontal velocity -0.3, towards the
    left, not towards the side scored against; and its vertical velocity is
    -0.3 (left by the bounce off the bottom edge), not 0.3. *)
Lemma serve_heads_to_scorer :
  let l := frames 1360 init_loop in
  let b' := ball (fst (update no_random l)) in
  snd (update no_random l) = [AddPoint1; PlaySound scoreSound]
  /\ b_x b' = 400%float /\ b_y b' = 300%float
  /\ b_dx b' = (-0.3)%float /\ lt (b_dx b') 0 = true
  /\ b_dy b' = (-0.3)%float /\ PrimFloat.eqb (b_dy b') 0.3 = false.
Proof. vm_compute. repeat split. Qed.

(** *** One point per crossing *)

Lemma apply_requests_app a b s :
  apply_requests (a ++ b) s = apply_requests b (apply_requests a s).
Proof. unfold apply_requests. now rewrite fold_left_app. Qed.

Lemma apply_requests_frame l s :
  apply_requests (requests l) s
  = if pastLeft (moved (ball l))
    then setScore (fun prev => mkScore (player1 prev) (player2 prev + 1)) s
    else if pastRight (moved (ball l))
    then setScore (fun prev => mkScore (player1 prev + 1) (player2 prev)) s
    else s.
Proof.
  unfold requests. rewrite !apply_requests_app.
  destruct (wallHit l); destruct (paddleHit l);
    destruct (pastLeft _); try reflexivity;
    destruct (pastRight _); reflexivity.
Qed.








(** ** Paddles: the guards do not clamp *)

(** C6 fails on the code. With [w] held from the first frame on, player 1's
    paddle is at -2.477e-12 after 625 more frames: the repeated subtraction of
    0.4 from 250 rounds to a value just above 0 one frame earlier, the guard
    [y > 0] lets one more step through, and nothing clamps the result.  With
    [s] held, the paddle is at 500.39999999998616 after 626 more frames, above
    600 - 100.  The same holds for player 2's paddle with the arrow keys. *)
Theorem paddle_leaves_range :
  let held k n := run_loop (Tick no_random :: KeyDown k
                            :: repeat (Tick no_random) n) init_loop in
  lt (pad_y (paddle1 (held "w"%string 625))) 0 = true
  /\ gt (pad_y (paddle1 (held "s"%string 626)))
        (canvas_height - paddleHeight) = true
  /\ lt (pad_y (paddle2 (held "ArrowUp"%string 625))) 0 = true
  /\ gt (pad_y (paddle2 (held "ArrowDown"%string 626)))
        (canvas_height - paddleHeight) = true
  /\ pad_y (paddle1 (held "s"%string 626)) = 500.39999999998616%float.
Proof. vm_compute. repeat split. Qed.

(** ** Wall bounces *)

Lemma yiter_add a b v : yiter (a + b) v = yiter b (yiter a v).
Proof. revert v. induction a as [|a IH]; intros v; [reflexivity|apply IH]. Qed.

Lemma yiter_S n v : yiter (S n) v = ystep (yiter n v).
Proof.
  replace (S n) with (n + 1) by lia. now rewrite yiter_add.
Qed.

(** An orbit that returns to its state number [a] after [p] more frames
    never leaves its first [a + p] states. *)
Lemma orbit_finite a p v :
  0 < p -> yiter (a + p) v = yiter a v ->
  forall n, exists k, k < a + p /\ yiter n v = yiter k v.
Proof.
  intros Hp Hc n. induction n as [n IH] using lt_wf_ind.
  destruct (Nat.lt_ge_cases n (a + p)) as [Hn|Hn].
  - exists n. now split.
  - destruct (IH (n - p)) as (k & Hk & E); [lia|].
    exists k. split; [exact Hk|]. rewrite <- E.
    replace n with ((a + p) + (n - p - a)) at 1 by lia.
    rewrite yiter_add, Hc, <- yiter_add. f_equal. lia.
Qed.

Lemma check_orbit_sound p n v :
  check_orbit p n v = true -> forall k, k < n -> p (yiter k v) = true.
Proof.
  revert v. induction n as [|n IH]; intros v H k Hk; [lia|].
  cbn [check_orbit] in H. apply andb_true_iff in H. destruct H as [H1 H2].
  destruct k as [|k]; [exact H1|]. cbn [yiter]. apply IH; [exact H2|lia].
Qed.

Lemma serve_down_closes :
  yiter (707 + 3896) serve_down = yiter 707 serve_down.
Proof. vm_compute. reflexivity. Qed.

Lemma serve_up_closes :
  yiter (2655 + 3896) serve_up = yiter 2655 serve_up.
Proof. vm_compute. reflexivity. Qed.

(** Whatever holds on the first states of both orbits holds on every
    vertical state that can arise. *)
Lemma yreach_check (p : float * float -> bool) :
  check_orbit p (707 + 3896) serve_down = true ->
  check_orbit p (2655 + 3896) serve_up = true ->
  forall v, yreach v -> p v = true.
Proof.
  intros C1 C2 v [n [-> | ->]].
  - destruct (orbit_finite 707 3896 serve_down) with (n := n)
      as (k & Hk & ->); [lia|exact serve_down_closes|].
    now apply (check_orbit_sound p _ _ C1).
  - destruct (orbit_finite 2655 3896 serve_up) with (n := n)
      as (k & Hk & ->); [lia|exact serve_up_closes|].
    now apply (check_orbit_sound p _ _ C2).
Qed.

Lemma single_touch_always v : yreach v -> single_touch v = true.
Proof. apply yreach_check; vm_compute; reflexivity. Qed.

Lemma wallHit_vert l :
  b_radius (ball l) = 8%float -> wallHit l = ywall (vert (ball l)).
Proof.
  intros R. unfold wallHit, hitsWall, moved, ywall, vert.
  cbn [b_x b_y b_radius b_dx b_dy fst snd]. now rewrite R.
Qed.

Lemma afterScore_vert l :
  b_radius (ball l) = 8%float ->
  vert (afterScore l)
  = if pastLeft (moved (ball l)) || pastRight (moved (ball l))
    then ((canvas_height / 2)%float, snd (ystep (vert (ball l))))
    else ystep (vert (ball l)).
Proof.
  intros R. destruct (afterScore_velocity l) as [_ Ey].
  unfold vert at 1. rewrite Ey. unfold afterScore.
  rewrite pastLeft_afterPaddle, pastRight_afterPaddle.
  unfold ystep. rewrite <- (wallHit_vert l R).
  destruct (afterPaddle_pos l) as (_ & Y & _).
  destruct (pastLeft _); [reflexivity|].
  destruct (pastRight _); [reflexivity|].
  cbn [orb]. rewrite Y. reflexivity.
Qed.

Lemma yreach_step v : yreach v -> yreach (ystep v).
Proof.
  intros [n [-> | ->]]; exists (S n); rewrite !yiter_S; [now left|now right].
Qed.

Lemma run_loop_yreach ins : yreach (vert (ball (run_loop ins init_loop))).
Proof.
  pattern (run_loop ins init_loop).
  refine (proj2 (run_loop_ind (fun l =>
    (vel_ok (ball l) /\ b_radius (ball l) = 8%float) /\ yreach (vert (ball l)))
    _ _ _ ins)).
  - split; [split; [split; left; reflexivity|reflexivity]|].
    exists 0. left. reflexivity.
  - intros random l [[V R] Y]. rewrite update_ball.
    pose proof (vel_ok_afterScore l V) as V'.
    split; [split; [exact V'|now rewrite afterScore_radius]|].
    pose proof (afterScore_vert l R) as E.
    destruct (pastLeft (moved (ball l)) || pastRight (moved (ball l))).
    + exists 0. destruct V' as [_ D].
      assert (Ey : b_y (afterScore l) = (canvas_height / 2)%float)
        by (now apply (f_equal fst) in E).
      unfold vert. rewrite Ey.
      destruct D as [-> | ->]; [left|right]; reflexivity.
    + rewrite E. now apply yreach_step.
  - intros ks l H. exact H.
Qed.

Lemma sounds_app s a b : sounds s (a ++ b) = sounds s a + sounds s b.
Proof.
  induction a as [|r a IH]; [reflexivity|].
  destruct r; cbn [app sounds]; rewrite IH; lia.
Qed.

Lemma wall_sounds l :
  sounds wallHitSound (requests l) = if wallHit l then 1 else 0.
Proof.
  unfold requests. rewrite !sounds_app.
  destruct (wallHit l); destruct (paddleHit l);
    destruct (pastLeft _); try reflexivity;
    destruct (pastRight _); reflexivity.
Qed.

Lemma burst_spec random x y count : forall r,
  List.length (burst random x y count r) = count
  /\ forall p, In p (burst random x y count r) ->
       p_x p = x /\ p_y p = y /\ p_life p = 1%float.
Proof.
  induction count as [|k IH]; intros r; cbn [burst List.length In].
  - split; [reflexivity|contradiction].
  - destruct (IH (S (S r))) as [L P]. split; [now rewrite L|].
    intros p [<- | H]; [repeat split|now apply P].
Qed.

(** After a served ball's first move there is no wall hit. *)
Lemma served_no_wall dx b :
  b_radius b = 8%float -> b_dy b = 0.3%float \/ b_dy b = (-0.3)%float ->
  hitsWall (moved (serve dx b)) = false.
Proof.
  intros R D. unfold hitsWall, moved, serve.
  cbn [b_x b_y b_radius b_dx b_dy]. rewrite R.
  destruct D as [-> | ->]; reflexivity.
Qed.

Lemma no_second_touch l l' :
  vel_ok (ball l) -> b_radius (ball l) = 8%float -> yreach (vert (ball l)) ->
  ball l' = afterScore l ->
  wallHit l = true -> wallHit l' = false.
Proof.
  intros V R Y E W.
  assert (R' : b_radius (ball l') = 8%float)
    by (now rewrite E, afterScore_radius).
  pose proof (afterScore_vert l R) as Ev.
  destruct (pastLeft (moved (ball l)) || pastRight (moved (ball l))) eqn:S.
  - unfold wallHit. rewrite E. unfold afterScore.
    rewrite pastLeft_afterPaddle, pastRight_afterPaddle.
    assert (Ra : b_radius (afterPaddle l) = 8%float).
    { destruct (afterPaddle_pos l) as (_ & _ & Ra). now rewrite Ra. }
    assert (Da : b_dy (afterPaddle l) = 0.3%float
                 \/ b_dy (afterPaddle l) = (-0.3)%float).
    { destruct (vel_ok_afterScore l V) as [_ D]. revert D.
      unfold afterScore.
      destruct (pastLeft (afterPaddle l)); [now cbn|].
      destruct (pastRight (afterPaddle l)); now cbn. }
    destruct (pastLeft (moved (ball l))); [now apply served_no_wall|].
    destruct (pastRight (moved (ball l))); [now apply served_no_wall|].
    discriminate.
  - rewrite (wallHit_vert l' R'), E, Ev.
    pose proof (single_touch_always _ Y) as T. unfold single_touch in T.
    rewrite <- (wallHit_vert l R), W in T. cbn in T.
    now apply negb_true_iff in T.
Qed.

(** C7. When this frame's move takes the ball's top or bottom edge past the
    surface edge, the frame negates the vertical velocity (once), asks for the
    wall-hit sound once and appends a burst of 10 particles, all at the ball's
    position with life 1, to the collection that is then aged; and in the next
    frame, whatever keys changed in between, the ball's edge is inside again,
    so the velocity is not negated a second time.  Without such a crossing the
    vertical velocity is kept and no wall-hit sound is asked for. *)
Theorem wall_bounce_once (ins : list LoopInput) (random : nat -> float)
    (ks : Keys) :
  let l := run_loop ins init_loop in
  let b := moved (ball l) in
  let l' := fst (update random l) in
  let rq := snd (update random l) in
  (wallHit l = true ->
     b_dy (ball l') = (- b_dy (ball l))%float
     /\ sounds wallHitSound rq = 1
     /\ (exists rest,
           particles l'
           = updateParticles
               (particles l ++ burst random (b_x b) (b_y b) 10 0 ++ rest))
     /\ List.length (burst random (b_x b) (b_y b) 10 0) = 10
     /\ (forall p, In p (burst random (b_x b) (b_y b) 10 0) ->
           p_x p = b_x b /\ p_y p = b_y b /\ p_life p = 1%float)
     /\ wallHit (with_keys ks l') = false)
  /\ (wallHit l = false ->
        b_dy (ball l') = b_dy (ball l) /\ sounds wallHitSound rq = 0).
Proof.
  cbv zeta.
  pose proof (run_loop_vel_ok ins) as V.
  pose proof (run_loop_radius ins) as R.
  pose proof (run_loop_yreach ins) as Y.
  revert V R Y. generalize (run_loop ins init_loop). intros l V R Y.
  rewrite (update_requests random l), (update_particles random l), wall_sounds.
  pose proof (update_ball random l) as E.
  revert E. generalize (fst (update random l)). intros l' E.
  destruct (afterScore_velocity l) as [_ Ey]. rewrite E, Ey.
  destruct (burst_spec random (b_x (moved (ball l))) (b_y (moved (ball l)))
              10 0) as [BL BP].
  split; intros W; rewrite W.
  - split; [reflexivity|]. split; [reflexivity|].
    split.
    { unfold spawned. rewrite W. eexists. reflexivity. }
    split; [exact BL|]. split; [exact BP|].
    apply (no_second_touch l (with_keys ks l') V R Y E W).
  - split; reflexivity.
Qed.

Lemma wall_bounce_once_witness :
  let ins := repeat (Tick no_random) 973 in
  wallHit (run_loop ins init_loop) = true
  /\ wallHit (with_keys init_keys
                (fst (update no_random (run_loop ins init_loop)))) = false.
Proof.
  intros ins.
  assert (W : wallHit (run_loop ins init_loop) = true)
    by (vm_compute; reflexivity).
  split; [exact W|].
  destruct (wall_bounce_once ins no_random init_keys) as [H _].
  apply (H W).
Defined.

(** ** Particles *)

Lemma life_checked k : k <= 199 -> life_check k = true.
Proof.
  intros H.
  assert (A : forallb life_check (seq 0 200) = true)
    by (vm_compute; reflexivity).
  rewrite forallb_forall in A. apply A. apply in_seq. lia.
Qed.

Lemma life_facts k :
  k <= 199 ->
  gt (life_at k) 0 = true /\ (life_at k <=? 1)%float = true
  /\ lt (life_at (S k)) (life_at k) = true
  /\ (gt (life_at (S k)) 0 = true <-> S k <= 199)
  /\ ((life_at (S k) <=? 0)%float = negb (gt (life_at (S k)) 0)).
Proof.
  intros H. pose proof (life_checked k H) as C. unfold life_check in C.
  rewrite !andb_true_iff in C. destruct C as ((((C1 & C2) & C3) & C4) & C5).
  apply Bool.eqb_prop in C4, C5.
  repeat split; try assumption.
  - intros G. rewrite G in C4. symmetry in C4. apply negb_true_iff in C4.
    apply Nat.eqb_neq in C4. lia.
  - intros G. rewrite C4. apply negb_true_iff. apply Nat.eqb_neq. lia.
Qed.

Lemma life_ok_burst random x y count r p :
  In p (burst random x y count r) -> life_ok p.
Proof.
  intros H. apply burst_spec in H. destruct H as (_ & _ & L).
  exists 0. split; [lia|exact L].
Qed.

Lemma life_ok_spawned random l :
  Forall life_ok (particles l) -> Forall life_ok (spawned random l).
Proof.
  intros H. unfold spawned. rewrite !Forall_app. split; [exact H|].
  split; [destruct (wallHit l)|destruct (paddleHit l)];
    try apply Forall_nil; apply Forall_forall; intros p;
    apply life_ok_burst.
Qed.

Lemma updateParticles_In ps q :
  In q (updateParticles ps)
  <-> exists p, In p ps /\ q = age p /\ gt (p_life q) 0 = true.
Proof.
  unfold updateParticles. rewrite filter_In, in_map_iff. unfold alive.
  split.
  - intros [(p & <- & Hp) G]. exists p. auto.
  - intros (p & Hp & -> & G). split; [exists p; auto|exact G].
Qed.

Lemma life_ok_updateParticles ps :
  Forall life_ok ps -> Forall life_ok (updateParticles ps).
Proof.
  intros H. apply Forall_forall. intros q Hq.
  apply updateParticles_In in Hq. destruct Hq as (p & Hp & -> & G).
  rewrite Forall_forall in H. destruct (H p Hp) as (k & Hk & L).
  cbn [age p_life] in G |- *. exists (S k). unfold life_ok.
  cbn [age p_life life_at]. rewrite L in G |- *.
  split; [|reflexivity].
  apply (life_facts k Hk). exact G.
Qed.

Lemma run_loop_life_ok ins :
  Forall life_ok (particles (run_loop ins init_loop)).
Proof.
  apply run_loop_ind.
  - apply Forall_nil.
  - intros random l H. rewrite update_particles.
    now apply life_ok_updateParticles, life_ok_spawned.
  - intros ks l H. exact H.
Qed.

Lemma advance_particle ps p :
  Forall life_ok ps -> In p ps ->
  gt (p_life p) 0 = true /\ (p_life p <=? 1)%float = true
  /\ lt (p_life (age p)) (p_life p) = true
  /\ (In (age p) (updateParticles ps) <-> gt (p_life (age p)) 0 = true)
  /\ (p_life (age p) <=? 0)%float = negb (gt (p_life (age p)) 0).
Proof.
  intros H Hp. rewrite Forall_forall in H. destruct (H p Hp) as (k & Hk & L).
  destruct (life_facts k Hk) as (F1 & F2 & F3 & _ & F5).
  cbn [age p_life]. rewrite L. cbn [life_at] in F3, F5.
  repeat split; try assumption.
  - intros Hq. apply updateParticles_In in Hq.
    destruct Hq as (p' & _ & E & G). cbn [age p_life] in G.
    rewrite L in G. exact G.
  - intros G. apply updateParticles_In. exists p.
    split; [exact Hp|]. split; [reflexivity|].
    cbn [age p_life]. now rewrite L.
Qed.

(** C9. [createParticles] appends [count] particles at the given position,
    each with life exactly 1.  A frame of a running loop stores as its
    collection the advance of what it found plus its own bursts (at most 25
    new particles, each with life 1): nothing else reaches the collection
    and every frame advances it exactly once.  Every particle that is about
    to be aged (in the collection as a frame finds it, or after this frame's
    bursts) has life in (0, 1]; ageing moves it by its velocity and takes
    0.005 off its life, which makes the life strictly smaller; it stays in the
    collection exactly when the new life is still above 0 and is dropped
    exactly when it is 0 or below.  So every particle left after a frame is
    the aged image of one that was there before and has life in (0, 1]. *)
Theorem particle_lifecycle (ins : list LoopInput) (random : nat -> float)
    (x y : float) (count r : nat) (ps0 : list Particle) :
  let l := run_loop ins init_loop in
  let l' := fst (update random l) in
  createParticles random x y count ps0 r
  = (ps0 ++ burst random x y count r, r + 2 * count)
  /\ List.length (burst random x y count r) = count
  /\ (forall p, In p (burst random x y count r) ->
        p_x p = x /\ p_y p = y /\ p_life p = 1%float)
  /\ (forall ps, ps = particles l \/ ps = spawned random l ->
     (forall p, In p ps ->
        gt (p_life p) 0 = true /\ (p_life p <=? 1)%float = true
        /\ p_x (age p) = (p_x p + p_dx p)%float
        /\ p_y (age p) = (p_y p + p_dy p)%float
        /\ p_life (age p) = (p_life p - 0.005)%float
        /\ lt (p_life (age p)) (p_life p) = true
        /\ (In (age p) (updateParticles ps) <-> gt (p_life (age p)) 0 = true)
        /\ (~ In (age p) (updateParticles ps)
            <-> (p_life (age p) <=? 0)%float = true))
     /\ (forall q, In q (updateParticles ps) ->
           (exists p, In p ps /\ q = age p)
           /\ gt (p_life q) 0 = true /\ (p_life q <=? 1)%float = true))
  /\ particles l' = updateParticles (spawned random l)
  /\ (exists fresh,
        spawned random l = particles l ++ fresh
        /\ List.length fresh <= 25
        /\ forall p, In p fresh -> p_life p = 1%float)
  /\ (forall p, In p (particles l) ->
        (In (age p) (particles l') <-> gt (p_life (age p)) 0 = true)
        /\ (~ In (age p) (particles l')
            <-> (p_life (age p) <=? 0)%float = true))
  /\ (forall q, In q (particles l') ->
        (exists p, In p (spawned random l) /\ q = age p)
        /\ gt (p_life q) 0 = true /\ (p_life q <=? 1)%float = true).
Proof.
  intros l l'.
  split; [apply createParticles_burst|].
  destruct (burst_spec random x y count r) as [BL BP].
  split; [exact BL|]. split; [exact BP|].
  assert (General : forall ps, Forall life_ok ps ->
     (forall p, In p ps ->
        gt (p_life p) 0 = true /\ (p_life p <=? 1)%float = true
        /\ p_x (age p) = (p_x p + p_dx p)%float
        /\ p_y (age p) = (p_y p + p_dy p)%float
        /\ p_life (age p) = (p_life p - 0.005)%float
        /\ lt (p_life (age p)) (p_life p) = true
        /\ (In (age p) (updateParticles ps) <-> gt (p_life (age p)) 0 = true)
        /\ (~ In (age p) (updateParticles ps)
            <-> (p_life (age p) <=? 0)%float = true))
     /\ (forall q, In q (updateParticles ps) ->
           (exists p, In p ps /\ q = age p)
           /\ gt (p_life q) 0 = true /\ (p_life q <=? 1)%float = true)).
  { intros ps OK. split.
    - intros p Hp.
      destruct (advance_particle ps p OK Hp) as (A1 & A2 & A3 & A4 & A5).
      repeat split; try assumption; try apply A4.
      + intros N. rewrite A5. apply negb_true_iff.
        destruct (gt (p_life (age p)) 0) eqn:G; [|reflexivity].
        exfalso. apply N, A4. reflexivity.
      + intros N Hq. apply A4 in Hq. rewrite A5, Hq in N. discriminate.
    - intros q Hq.
      pose proof (life_ok_updateParticles ps OK) as OK'.
      rewrite Forall_forall in OK'. destruct (OK' q Hq) as (k & Hk & L).
      destruct (life_facts k Hk) as (F1 & F2 & _).
      apply updateParticles_In in Hq. destruct Hq as (p & Hp & E & G).
      split; [exists p; auto|]. rewrite L. auto. }
  assert (OKl : Forall life_ok (particles l)) by apply run_loop_life_ok.
  assert (OKs : Forall life_ok (spawned random l))
    by (apply life_ok_spawned; exact OKl).
  assert (U : particles l' = updateParticles (spawned random l))
    by apply update_particles.
  split.
  { intros ps [-> | ->]; apply General; assumption. }
  split; [exact U|].
  split.
  { unfold spawned. eexists. split; [reflexivity|]. split.
    - rewrite length_app.
      destruct (wallHit l), (paddleHit l); cbn [List.length];
        rewrite ?(proj1 (burst_spec _ _ _ _ _)); lia.
    - intros p Hp. apply in_app_or in Hp. destruct Hp as [Hp|Hp].
      + destruct (wallHit l); [|contradiction].
        apply burst_spec in Hp. apply Hp.
      + destruct (paddleHit l); [|contradiction].
        apply burst_spec in Hp. apply Hp. }
  split.
  { intros p Hp. rewrite U.
    assert (Hs : In p (spawned random l))
      by (unfold spawned; apply in_or_app; now left).
    destruct (General _ OKs) as [G1 _].
    destruct (G1 p Hs) as (_ & _ & _ & _ & _ & _ & A & B). now split. }
  intros q Hq. rewrite U in Hq. destruct (General _ OKs) as [_ G2].
  now apply G2.
Qed.

(** Bottom bounce at frame 974, then 198 frames: the ten particles of the
    burst are still there; the next frame drops them all. *)
Lemma particle_lifecycle_witness :
  let l := run_loop (repeat (Tick no_random) 1172) init_loop in
  List.length (particles l) = 10
  /\ forall p, In p (particles l) ->
       ~ In (age p) (particles (fst (update no_random l))).
Proof.
  intros l.
  assert (L : List.length (particles l) = 10) by (vm_compute; reflexivity).
  assert (A : forallb (fun q => (p_life (age q) <=? 0)%float) (particles l)
              = true) by (vm_compute; reflexivity).
  pose proof (particle_lifecycle (repeat (Tick no_random) 1172) no_random
                0%float 0%float 0 0 []) as H.
  cbv zeta in H. fold l in H. clearbody l.
  destruct H as (_ & _ & _ & _ & _ & _ & H & _).
  split; [exact L|]. intros p Hp.
  rewrite forallb_forall in A. exact (proj2 (proj2 (H p Hp)) (A p Hp)).
Defined.

(** ** Renders and effects *)

Lemma first_frame random :
  update random init_loop
  = (mkLoop (moved init_ball) init_paddle init_paddle init_keys [], []).
Proof. vm_compute. reflexivity. Qed.

Lemma loopDeps_eqb_eq a b : loopDeps_eqb a b = true <-> a = b.
Proof.
  unfold loopDeps_eqb. rewrite !andb_true_iff.
  rewrite !Bool.eqb_true_iff, String.eqb_eq, !Nat.eqb_eq.
  destruct a, b; cbn. split.
  - intros (((((? & ?) & ?) & ?) & ?) & ?). subst. reflexivity.
  - intros E. injection E. intros. subst. repeat split.
Qed.

Lemma winDeps_eqb_eq a b : winDeps_eqb a b = true <-> a = b.
Proof.
  unfold winDeps_eqb. rewrite andb_true_iff, Bool.eqb_true_iff, Nat.eqb_eq.
  destruct a, b; cbn. split.
  - intros [? ?]. subst. reflexivity.
  - intros E. injection E. intros. subst. split; reflexivity.
Qed.

Lemma same_loopDeps_refl d : same_deps loopDeps_eqb (Some d) d = true.
Proof. cbn. now apply loopDeps_eqb_eq. Qed.

Lemma same_winDeps_refl d : same_deps winDeps_eqb (Some d) d = true.
Proof. cbn. now apply winDeps_eqb_eq. Qed.

Lemma gameLoopEffect_eq random s :
  gameLoopEffect random s
  = (if gameStarted s && negb (gamePaused s)
     then Some (fst (update random init_loop)) else None, []).
Proof.
  unfold gameLoopEffect. rewrite first_frame.
  destruct (gameStarted s), (gamePaused s); reflexivity.
Qed.

(** One render, in closed form. *)
Lemma commit_eq random w :
  commit random w
  = mkWorld
      (if same_deps winDeps_eqb (winner_ran w) (winDeps (react w))
       then react w else winnerEffect (react w) (react w))
      (if same_deps loopDeps_eqb (loop_ran w) (loopDeps (react w))
       then running w
       else if gameStarted (react w) && negb (gamePaused (react w))
            then Some (fst (update random init_loop)) else None)
      (Some (loopDeps (react w)))
      (Some (winDeps (react w))).
Proof.
  unfold commit. rewrite gameLoopEffect_eq.
  destruct (same_deps loopDeps_eqb _ _); reflexivity.
Qed.

Lemma winnerEffect_winDeps s : winDeps (winnerEffect s s) = winDeps s.
Proof.
  unfold winnerEffect.
  destruct (15 <=? player1 (score s)); [reflexivity|].
  destruct (15 <=? player2 (score s)); reflexivity.
Qed.

Lemma winnerEffect_idem s :
  winnerEffect (winnerEffect s s) (winnerEffect s s) = winnerEffect s s.
Proof.
  unfold winnerEffect.
  destruct (15 <=? player1 (score s)) eqn:A; cbn [score setGameStarted setWinner];
    [now rewrite A|].
  destruct (15 <=? player2 (score s)) eqn:B; cbn [score setGameStarted setWinner];
    rewrite A, B; reflexivity.
Qed.

(** Two renders, in closed form. *)
Lemma settle_eq random w :
  let s := react w in
  let s1 := if same_deps winDeps_eqb (winner_ran w) (winDeps s)
            then s else winnerEffect s s in
  let fresh t := if gameStarted t && negb (gamePaused t)
                 then Some (fst (update random init_loop)) else None in
  settle random w
  = mkWorld s1
      (if loopDeps_eqb (loopDeps s) (loopDeps s1)
       then (if same_deps loopDeps_eqb (loop_ran w) (loopDeps s)
             then running w else fresh s)
       else fresh s1)
      (Some (loopDeps s1))
      (Some (winDeps s1)).
Proof.
  cbv zeta. unfold settle. rewrite !commit_eq.
  cbn [react running loop_ran winner_ran].
  remember (if same_deps winDeps_eqb (winner_ran w) (winDeps (react w))
            then react w else winnerEffect (react w) (react w)) as s1 eqn:E.
  assert (W : winDeps s1 = winDeps (react w)).
  { subst s1. destruct (same_deps winDeps_eqb _ _);
      [reflexivity|apply winnerEffect_winDeps]. }
  rewrite <- W, same_winDeps_refl. reflexivity.
Qed.

(** Two renders reach a state that a third one leaves alone. *)
Lemma settle_stable random w : commit random (settle random w) = settle random w.
Proof.
  rewrite settle_eq. cbv zeta. rewrite commit_eq.
  cbn [react running loop_ran winner_ran].
  now rewrite same_winDeps_refl, same_loopDeps_refl.
Qed.

(** ** What every reachable world satisfies *)

Lemma handle_ran random i w :
  loop_ran (handle random i w) = loop_ran w
  /\ winner_ran (handle random i w) = winner_ran w.
Proof.
  unfold handle. destruct i;
    repeat match goal with
           | |- context [match running w with _ => _ end] =>
               destruct (running w)
           | |- context [update ?r ?l] => destruct (update r l)
           | |- context [if ?c then _ else _] => destruct c
           end; split; reflexivity.
Qed.

Lemma handle_running random i w :
  running (handle random i w) = None <-> running w = None.
Proof.
  unfold handle. destruct (running w) as [l|] eqn:R; destruct i;
    repeat match goal with
           | |- context [update ?r ?l] => destruct (update r l)
           | |- context [if ?c then _ else _] => destruct c
           end; unfold with_react, with_running; cbn [running];
    rewrite ?R; split; intros H; try discriminate; reflexivity.
Qed.

Lemma handle_coherent random i w : coherent w -> coherent (handle random i w).
Proof.
  intros (d & Hd & C). exists d.
  destruct (handle_ran random i w) as [-> _]. split; [exact Hd|].
  now rewrite handle_running.
Qed.

Lemma fresh_none random (s : Session) :
  (if gameStarted s && negb (gamePaused s)
   then Some (fst (update random init_loop)) else None) = None
  <-> d_started (loopDeps s) && negb (d_paused (loopDeps s)) = false.
Proof.
  cbn [loopDeps d_started d_paused].
  destruct (gameStarted s && negb (gamePaused s)); split;
    intros H; try discriminate; reflexivity.
Qed.

Lemma settle_settled random w : coherent w -> settled (settle random w).
Proof.
  intros (d & Hd & C). rewrite settle_eq. cbv zeta.
  remember (if same_deps winDeps_eqb (winner_ran w) (winDeps (react w))
            then react w else winnerEffect (react w) (react w)) as s1 eqn:E.
  unfold settled. cbn [react running loop_ran winner_ran].
  split; [|split; reflexivity].
  exists (loopDeps s1). split; [reflexivity|].
  destruct (loopDeps_eqb (loopDeps (react w)) (loopDeps s1)) eqn:Q.
  - apply loopDeps_eqb_eq in Q. rewrite <- Q.
    destruct (same_deps loopDeps_eqb (loop_ran w) (loopDeps (react w))) eqn:S.
    + rewrite Hd in S. cbn in S. apply loopDeps_eqb_eq in S. now subst d.
    + apply fresh_none.
  - apply fresh_none.
Qed.

Lemma step_settled random i w : settled w -> settled (step random i w).
Proof.
  intros [C _]. unfold step. now apply settle_settled, handle_coherent.
Qed.

Lemma mount_settled : settled mount.
Proof.
  unfold settled, coherent. vm_compute. split; [|split; reflexivity].
  eexists. split; [reflexivity|]. cbn. split; reflexivity.
Qed.

Lemma reachable_settled w : reachable w -> settled w.
Proof.
  induction 1 as [|random i w _ IH]; [exact mount_settled|].
  now apply step_settled.
Qed.

(** A settled world is a fixed point of rendering. *)
Lemma settled_commit random w : settled w -> commit random w = w.
Proof.
  intros (_ & L & W). rewrite commit_eq, L, W.
  rewrite same_winDeps_refl, same_loopDeps_refl.
  destruct w; cbn in *. now rewrite L, W.
Qed.

Lemma settled_settle random w : settled w -> settle random w = w.
Proof.
  intros H. unfold settle.
  now rewrite (settled_commit random w H), (settled_commit random w H).
Qed.

(** In a settled world a loop runs exactly while the game is started and
    not paused. *)
Lemma settled_running w :
  settled w ->
  (running w = None
   <-> gameStarted (react w) && negb (gamePaused (react w)) = false).
Proof.
  intros ((d & Hd & C) & L & _). rewrite Hd in L. injection L as ->.
  exact C.
Qed.

(** Without a running loop a frame changes nothing. *)
Lemma idle_frame random w :
  settled w -> running w = None -> step random Frame w = w.
Proof.
  intros S R. unfold step, handle. rewrite R. now apply settled_settle.
Qed.

(** ** A frame of a running game, with the renders that follow *)

Lemma setScore_loopDeps f s :
  player1 (f (score s)) <> player1 (score s)
  \/ player2 (f (score s)) <> player2 (score s) ->
  loopDeps_eqb (loopDeps s) (loopDeps (setScore f s)) = false.
Proof.
  intros H. destruct (loopDeps_eqb _ _) eqn:Q; [|reflexivity].
  apply loopDeps_eqb_eq in Q.
  pose proof (f_equal d_player1 Q) as Q1.
  pose proof (f_equal d_player2 Q) as Q2.
  cbn in Q1, Q2. destruct H as [H|H]; congruence.
Qed.

Lemma setScore_winDeps f s :
  winDeps_eqb (winDeps s) (winDeps (setScore f s)) = false.
Proof.
  destruct (winDeps_eqb _ _) eqn:Q; [|reflexivity].
  apply winDeps_eqb_eq in Q. apply (f_equal fst) in Q. cbn in Q. lia.
Qed.

Lemma winnerEffect_fired s :
  (15 <=? player1 (score s)) || (15 <=? player2 (score s)) = true ->
  gameStarted (winnerEffect s s) = false
  /\ score (winnerEffect s s) = score s
  /\ winner (winnerEffect s s)
     = Some (if 15 <=? player1 (score s)
             then "Player 1"%string else "Player 2"%string).
Proof.
  unfold winnerEffect.
  destruct (15 <=? player1 (score s)); [repeat split|].
  destruct (15 <=? player2 (score s)); [repeat split|discriminate].
Qed.

Lemma winnerEffect_idle s :
  (15 <=? player1 (score s)) || (15 <=? player2 (score s)) = false ->
  winnerEffect s s = s.
Proof.
  unfold winnerEffect.
  destruct (15 <=? player1 (score s)); [discriminate|].
  destruct (15 <=? player2 (score s)); [discriminate|reflexivity].
Qed.

(** The renders after a [setScore] in a running game: the loop is started
    afresh, and stopped again if a counter has reached 15. *)
Lemma settle_after_point random f l' w :
  settled w -> running w <> None ->
  player1 (f (score (react w))) <> player1 (score (react w))
  \/ player2 (f (score (react w))) <> player2 (score (react w)) ->
  let s' := setScore f (react w) in
  settle random (with_running (Some l') (with_react s' w))
  = mkWorld (winnerEffect s' s')
      (if (15 <=? player1 (score s')) || (15 <=? player2 (score s'))
       then None else Some (fst (update random init_loop)))
      (Some (loopDeps (winnerEffect s' s')))
      (Some (winDeps (winnerEffect s' s'))).
Proof.
  intros S R H s'. pose proof S as (_ & L & W).
  assert (P : gameStarted (react w) && negb (gamePaused (react w)) = true).
  { destruct (gameStarted (react w) && negb (gamePaused (react w))) eqn:P;
      [reflexivity|]. now apply (settled_running w S) in P. }
  rewrite settle_eq. cbv zeta.
  cbn [react running loop_ran winner_ran with_react with_running].
  rewrite L, W. cbn [same_deps]. fold s'.
  pose proof (setScore_winDeps f (react w)) as E1.
  pose proof (setScore_loopDeps f _ H) as E2.
  fold s' in E1, E2. rewrite E1, E2.
  change (gameStarted s') with (gameStarted (react w)).
  change (gamePaused s') with (gamePaused (react w)). rewrite P.
  destruct ((15 <=? player1 (score s')) || (15 <=? player2 (score s'))) eqn:F.
  - destruct (winnerEffect_fired s' F) as (G & _ & _).
    destruct (loopDeps_eqb (loopDeps s') (loopDeps (winnerEffect s' s'))) eqn:Q.
    + apply loopDeps_eqb_eq in Q. apply (f_equal d_started) in Q.
      cbn [loopDeps d_started] in Q. rewrite G in Q.
      change (gameStarted s') with (gameStarted (react w)) in Q.
      apply andb_true_iff in P. destruct P as [P _]. congruence.
    + now rewrite G.
  - rewrite (winnerEffect_idle s' F).
    assert (Q : loopDeps_eqb (loopDeps s') (loopDeps s') = true)
      by now apply loopDeps_eqb_eq.
    now rewrite Q.
Qed.

(** A whole frame step of a running game. *)
Lemma frame_step random w l :
  settled w -> running w = Some l ->
  let s' := apply_requests (requests l) (react w) in
  step random Frame w
  = if scored (requests l) =? 0
    then with_running (Some (fst (update random l))) w
    else mkWorld (winnerEffect s' s')
           (if (15 <=? player1 (score s')) || (15 <=? player2 (score s'))
            then None else Some (fst (update random init_loop)))
           (Some (loopDeps (winnerEffect s' s')))
           (Some (winDeps (winnerEffect s' s'))).
Proof.
  intros S R s'. subst s'. unfold step, handle. rewrite R.
  pose proof (update_requests random l) as U.
  destruct (update random l) as [l' rq]. cbn [fst snd] in U |- *. subst rq.
  rewrite apply_requests_frame, scored_requests.
  assert (R' : running w <> None) by (rewrite R; discriminate).
  destruct (pastLeft (moved (ball l)));
    [|destruct (pastRight (moved (ball l)))]; cbn [Nat.eqb].
  - apply (settle_after_point random _ l' w S R'). right. cbn. lia.
  - apply (settle_after_point random _ l' w S R'). left. cbn. lia.
  - apply settled_settle. destruct S as (C & L & W).
    split; [|split; assumption].
    destruct C as (d & Hd & C). exists d. split; [exact Hd|].
    cbn [with_running with_react running react]. rewrite R in C.
    split; intros X; [discriminate|]. apply C in X. discriminate.
Qed.

(** ** End of the match *)

Lemma winnerEffect_score s : score (winnerEffect s s) = score s.
Proof.
  unfold winnerEffect.
  destruct (15 <=? player1 (score s)); [reflexivity|].
  destruct (15 <=? player2 (score s)); reflexivity.
Qed.

Lemma settled_playing w l :
  settled w -> running w = Some l ->
  gameStarted (react w) = true /\ gamePaused (react w) = false.
Proof.
  intros S R.
  destruct (gameStarted (react w) && negb (gamePaused (react w))) eqn:P.
  - apply andb_true_iff in P. destruct P as [P1 P2].
    apply negb_true_iff in P2. now split.
  - apply (settled_running w S) in P. congruence.
Qed.

(** C8. In a running game with both counters below 15, a frame that brings
    player 1's counter to 15 records the winner "Player 1", clears
    [gameStarted] and leaves no loop running, so every later frame leaves the
    whole state as it is; likewise for player 2 and "Player 2".  A frame after
    which both counters are still below 15 ends nothing: the winner is
    unchanged and a loop keeps running.  No counter passes 15. *)
Theorem first_to_fifteen_ends_match (random random' : nat -> float)
    (w : World) (l : Loop) :
  settled w -> running w = Some l ->
  player1 (score (react w)) < 15 -> player2 (score (react w)) < 15 ->
  let w' := step random Frame w in
  let sc' := score (react w') in
  (player1 sc' = 15 ->
     winner (react w') = Some "Player 1"%string
     /\ gameStarted (react w') = false /\ running w' = None
     /\ player2 sc' < 15 /\ step random' Frame w' = w')
  /\ (player2 sc' = 15 ->
        winner (react w') = Some "Player 2"%string
        /\ gameStarted (react w') = false /\ running w' = None
        /\ player1 sc' < 15 /\ step random' Frame w' = w')
  /\ (player1 sc' < 15 -> player2 sc' < 15 ->
        winner (react w') = winner (react w)
        /\ gameStarted (react w') = true /\ running w' <> None)
  /\ player1 sc' <= 15 /\ player2 sc' <= 15.
Proof.
  intros S R P1 P2 w' sc'.
  assert (S' : settled w') by (apply step_settled; exact S).
  assert (I : running w' = None -> step random' Frame w' = w')
    by (apply idle_frame; exact S').
  destruct (settled_playing w l S R) as [G _].
  pose proof (frame_step random w l S R) as E. cbv zeta in E.
  fold w' in E. revert E. rewrite apply_requests_frame, scored_requests.
  subst sc'. clearbody w'.
  destruct (pastLeft (moved (ball l)));
    [|destruct (pastRight (moved (ball l)))]; cbn [Nat.eqb]; intros E.
  - (* player 2 scores *)
    set (s' := setScore (fun prev => mkScore (player1 prev) (player2 prev + 1))
                        (react w)) in *.
    assert (A : (15 <=? player1 (score s')) = false)
      by (apply Nat.leb_gt; cbn; lia).
    rewrite A in E. cbn [orb] in E.
    destruct (15 <=? player2 (score s')) eqn:B.
    + destruct (winnerEffect_fired s') as (F1 & F2 & F3);
        [now rewrite A, B|]. rewrite A in F3.
      apply Nat.leb_le in B. cbn in B.
      rewrite E in I |- *. cbn [react running] in I |- *. rewrite F2.
      cbn [s' setScore score player1 player2].
      repeat split; intros; auto; try lia.
    + rewrite (winnerEffect_idle s') in E by now rewrite A, B.
      apply Nat.leb_gt in B. cbn in B.
      rewrite E. cbn [react running s' setScore score player1 player2 winner
                      gameStarted].
      repeat split; intros; try lia; auto; discriminate.
  - (* player 1 scores *)
    set (s' := setScore (fun prev => mkScore (player1 prev + 1) (player2 prev))
                        (react w)) in *.
    assert (B : (15 <=? player2 (score s')) = false)
      by (apply Nat.leb_gt; cbn; lia).
    rewrite B, orb_false_r in E.
    destruct (15 <=? player1 (score s')) eqn:A.
    + destruct (winnerEffect_fired s') as (F1 & F2 & F3);
        [now rewrite A|]. rewrite A in F3.
      apply Nat.leb_le in A. cbn in A.
      rewrite E in I |- *. cbn [react running] in I |- *. rewrite F2.
      cbn [s' setScore score player1 player2].
      repeat split; intros; auto; try lia.
    + rewrite (winnerEffect_idle s') in E by now rewrite A, B.
      apply Nat.leb_gt in A. cbn in A.
      rewrite E. cbn [react running s' setScore score player1 player2 winner
                      gameStarted].
      repeat split; intros; try lia; auto; discriminate.
  - (* no point *)
    rewrite E. cbn [with_running react running].
    repeat split; intros; try lia; auto; discriminate.
Qed.

(** ** A point starts the loop afresh *)

Lemma commit_after_point random f l' w :
  settled w -> running w <> None ->
  player1 (f (score (react w))) <> player1 (score (react w))
  \/ player2 (f (score (react w))) <> player2 (score (react w)) ->
  let s' := setScore f (react w) in
  commit random (with_running (Some l') (with_react s' w))
  = mkWorld (winnerEffect s' s') (Some (fst (update random init_loop)))
            (Some (loopDeps s')) (Some (winDeps s')).
Proof.
  intros S R H s'. pose proof S as (_ & L & W).
  assert (P : gameStarted (react w) && negb (gamePaused (react w)) = true).
  { destruct (gameStarted (react w) && negb (gamePaused (react w))) eqn:P;
      [reflexivity|]. now apply (settled_running w S) in P. }
  rewrite commit_eq.
  cbn [react running loop_ran winner_ran with_react with_running].
  rewrite L, W. cbn [same_deps].
  pose proof (setScore_winDeps f (react w)) as E1.
  pose proof (setScore_loopDeps f _ H) as E2.
  fold s' in E1, E2. rewrite E1, E2.
  change (gameStarted s') with (gameStarted (react w)).
  change (gamePaused s') with (gamePaused (react w)). now rewrite P.
Qed.

(** C5. When a frame of a running game awards a point, the render that
    follows runs the game-loop effect again, and the loop it leaves is the
    one every start gives, after its first frame: both paddles at the vertical
    centre 250, no particles, no key held, the ball one move from the centre.
    Nothing of the old loop survives.  This loop is the one that keeps running
    unless the point ended the match. *)
Theorem point_recreates_loop (random : nat -> float) (w : World) (l : Loop) :
  settled w -> running w = Some l -> scored (snd (update random l)) = 1 ->
  let w1 := commit random (handle random Frame w) in
  let w' := step random Frame w in
  exists l1,
    running w1 = Some l1
    /\ l1 = fst (update random init_loop)
    /\ paddle1 l1 = init_paddle /\ paddle2 l1 = init_paddle
    /\ pad_y (paddle1 l1) = 250%float /\ pad_y (paddle2 l1) = 250%float
    /\ particles l1 = [] /\ keys l1 = init_keys
    /\ ball l1 = moved init_ball
    /\ (player1 (score (react w')) < 15 -> player2 (score (react w')) < 15 ->
        running w' = Some l1).
Proof.
  intros S R H w1 w'. rewrite update_requests in H.
  exists (fst (update random init_loop)).
  assert (R' : running w <> None) by (rewrite R; discriminate).
  pose proof (frame_step random w l S R) as E. cbv zeta in E. fold w' in E.
  assert (E1 : running w1 = Some (fst (update random init_loop))).
  { subst w1. unfold handle. rewrite R.
    pose proof (update_requests random l) as U.
    destruct (update random l) as [l' rq]. cbn [fst snd] in U. subst rq.
    rewrite apply_requests_frame. rewrite scored_requests in H.
    destruct (pastLeft (moved (ball l)));
      [|destruct (pastRight (moved (ball l))); [|discriminate]].
    - rewrite (commit_after_point random _ l' w S R'); [reflexivity|].
      right. cbn. lia.
    - rewrite (commit_after_point random _ l' w S R'); [reflexivity|].
      left. cbn. lia. }
  split; [exact E1|]. split; [reflexivity|].
  rewrite first_frame. cbn [fst paddle1 paddle2 particles keys ball].
  repeat split.
  intros P1 P2. clearbody w'.
  rewrite H in E. cbn [Nat.eqb] in E. rewrite E in P1, P2 |- *.
  cbn [react running] in P1, P2 |- *. rewrite winnerEffect_score in P1, P2.
  apply Nat.leb_gt in P1, P2. now rewrite P1, P2.
Qed.

(** ** Pause and resume *)

Lemma steps_snoc tr ri w :
  steps (tr ++ [ri]) w = step (fst ri) (snd ri) (steps tr w).
Proof. unfold steps. now rewrite fold_left_app. Qed.

(** While neither counter has reached 15, rendering leaves the React state
    alone. *)
Lemma settle_react random w :
  player1 (score (react w)) < 15 -> player2 (score (react w)) < 15 ->
  react (settle random w) = react w.
Proof.
  intros P1 P2. rewrite settle_eq. cbv zeta. cbn [react].
  destruct (same_deps winDeps_eqb _ _); [reflexivity|].
  apply winnerEffect_idle. apply Nat.leb_gt in P1, P2. now rewrite P1, P2.
Qed.

(** What the inputs that do not end a pause leave alone when no loop runs
    and the pause menu is up. *)
Lemma handle_paused random i w :
  running w = None -> showPauseMenu (react w) = true ->
  stays_paused i = true ->
  let s' := react (handle random i w) in
  gameStarted s' = gameStarted (react w)
  /\ gamePaused s' = gamePaused (react w)
  /\ showPauseMenu s' = true
  /\ score s' = score (react w).
Proof.
  intros R M H. unfold handle. rewrite R, M.
  destruct i; try discriminate H; cbn [negb andb];
    rewrite ?andb_false_r;
    repeat match goal with
           | |- context [if ?c then _ else _] => destruct c
           end; cbn; auto.
Qed.

Lemma paused_step random i w :
  paused w -> stays_paused i = true ->
  paused (step random i w)
  /\ score (react (step random i w)) = score (react w)
  /\ running (step random i w) = None.
Proof.
  intros (S & G & P & M & P1 & P2) H.
  assert (R : running w = None).
  { apply (settled_running w S). now rewrite G, P. }
  destruct (handle_paused random i w R M H) as (G' & P' & M' & Sc).
  cbv zeta in *.
  assert (E : react (step random i w) = react (handle random i w)).
  { unfold step. apply settle_react; rewrite Sc; assumption. }
  assert (S' : settled (step random i w)) by now apply step_settled.
  assert (Q : paused (step random i w)).
  { unfold paused. split; [exact S'|]. rewrite E, G', P', M', Sc.
    repeat split; assumption. }
  split; [exact Q|]. split; [now rewrite E|].
  apply (settled_running _ S'). rewrite E, G', P', G, P. reflexivity.
Qed.

Lemma paused_steps tr w :
  paused w -> Forall (fun ri => stays_paused (snd ri) = true) tr ->
  paused (steps tr w)
  /\ score (react (steps tr w)) = score (react w)
  /\ running (steps tr w) = None.
Proof.
  intros Pw. induction tr as [|ri tr IH] using rev_ind; intros F.
  - cbn. split; [exact Pw|]. split; [reflexivity|].
    destruct Pw as (S & G & P & _). apply (settled_running w S).
    now rewrite G, P.
  - apply Forall_app in F. destruct F as [F1 F2].
    apply Forall_inv in F2. destruct (IH F1) as (Q & Sc & _).
    rewrite steps_snoc.
    destruct (paused_step (fst ri) (snd ri) _ Q F2) as (Q' & Sc' & R').
    split; [exact Q'|]. split; [congruence|exact R'].
Qed.

Lemma escape_pauses random w l :
  settled w -> running w = Some l ->
  player1 (score (react w)) < 15 -> player2 (score (react w)) < 15 ->
  paused (step random (PressKey "Escape") w)
  /\ score (react (step random (PressKey "Escape") w)) = score (react w).
Proof.
  intros S R P1 P2. destruct (settled_playing w l S R) as [G _].
  assert (E : react (step random (PressKey "Escape") w)
              = handleEscape (react w)).
  { unfold step. rewrite settle_react; unfold handle; rewrite R; cbn;
      [reflexivity|assumption|assumption]. }
  split; [|now rewrite E].
  unfold paused. rewrite E. cbn.
  split; [now apply step_settled|]. repeat split; assumption.
Qed.

Lemma resume_restarts random w :
  paused w ->
  let wr := step random ClickResume w in
  gamePaused (react wr) = false
  /\ score (react wr) = score (react w)
  /\ running wr = Some (fst (update random init_loop)).
Proof.
  intros (S & G & P & M & P1 & P2) wr. subst wr.
  pose proof S as (_ & L & W).
  assert (E : handle random ClickResume w = with_react (handleResume (react w)) w)
    by (unfold handle; now rewrite M).
  unfold step. rewrite E.
  rewrite settle_eq. cbv zeta.
  cbn [react running loop_ran winner_ran with_react].
  rewrite L, W. cbn [same_deps].
  assert (W1 : winDeps_eqb (winDeps (react w)) (winDeps (handleResume (react w)))
               = true) by now apply winDeps_eqb_eq.
  rewrite W1.
  assert (L0 : loopDeps_eqb (loopDeps (handleResume (react w)))
                 (loopDeps (handleResume (react w))) = true)
    by now apply loopDeps_eqb_eq.
  rewrite L0.
  assert (L1 : loopDeps_eqb (loopDeps (react w))
                 (loopDeps (handleResume (react w))) = false).
  { destruct (loopDeps_eqb (loopDeps (react w))
                (loopDeps (handleResume (react w)))) eqn:Q; [|reflexivity].
    apply loopDeps_eqb_eq in Q. apply (f_equal d_paused) in Q.
    cbn in Q. congruence. }
  rewrite L1. cbn [handleResume setShowPauseMenu setGamePaused gameStarted
                   gamePaused score negb]. rewrite G. repeat split.
Qed.

(** C1, as the code has it. When Escape is pressed in a running game,
    [gamePaused] is set and no loop runs any more.  For as long as only
    frames, keys, the Pause and Settings buttons and the settings controls
    follow, that stays so, the score is the one at the moment of the pause,
    and a frame changes nothing at all.  Resume then keeps the score and
    starts a new loop from the initial values (first frame already run):
    ball one move from the centre with velocity (0.3, 0.3), both paddles at
    250, no particles, no key held.  The loop that was running at the pause
    is not continued. *)
Theorem pause_suspends_resume_restarts (random random' : nat -> float)
    (tr : list ((nat -> float) * Input)) (w : World) (l : Loop) :
  settled w -> running w = Some l ->
  player1 (score (react w)) < 15 -> player2 (score (react w)) < 15 ->
  Forall (fun ri => stays_paused (snd ri) = true) tr ->
  let wp := step random (PressKey "Escape") w in
  let w2 := steps tr wp in
  let wr := step random' ClickResume w2 in
  gamePaused (react wp) = true /\ running wp = None
  /\ gamePaused (react w2) = true /\ running w2 = None
  /\ score (react w2) = score (react w)
  /\ (forall r, step r Frame w2 = w2)
  /\ gamePaused (react wr) = false /\ score (react wr) = score (react w)
  /\ running wr = Some (fst (update random' init_loop))
  /\ running wr
     = Some (mkLoop (moved init_ball) init_paddle init_paddle init_keys []).
Proof.
  intros S R P1 P2 F wp w2 wr.
  destruct (escape_pauses random w l S R P1 P2) as [Q Sc]. fold wp in Q, Sc.
  destruct (paused_steps [] wp Q (Forall_nil _)) as (_ & _ & R0).
  destruct (paused_steps tr wp Q F) as (Q2 & Sc2 & R2). fold w2 in Q2, Sc2, R2.
  destruct (resume_restarts random' w2 Q2) as (A & B & C). fold wr in A, B, C.
  split; [apply Q|]. split; [exact R0|].
  split; [apply Q2|]. split; [exact R2|]. split; [congruence|].
  split; [intros r; apply idle_frame; [apply Q2|exact R2]|].
  split; [exact A|]. split; [congruence|]. split; [exact C|].
  rewrite C, first_frame. reflexivity.
Qed.

(** ** The sample sessions *)

Lemma play_reachable ins : forall w, reachable w -> reachable (play ins w).
Proof.
  induction ins as [|i ins IH]; intros w H; [exact H|].
  apply (IH (step no_random i w)). now apply reach_step.
Qed.

Lemma steps_reachable tr : forall w, reachable w -> reachable (steps tr w).
Proof.
  induction tr as [|ri tr IH]; intros w H; [exact H|].
  apply (IH (step (fst ri) (snd ri) w)). now apply reach_step.
Qed.

Lemma in_play_running :
  running in_play
  = Some (run_loop [Tick no_random; KeyDown "s"; Tick no_random;
                    Tick no_random; Tick no_random] init_loop).
Proof. vm_compute. reflexivity. Qed.

(** C1, as stated, fails. Three frames into a game with [s] held, the ball
    is at x = 401.2 and player 1's paddle at 251.2.  After Escape and Resume
    the running loop has the ball at x = 400.3, the paddle back at 250 and the
    [s] flag cleared although the key was never released: the game does not
    continue from the state it was suspended in. *)
Lemma resume_loses_suspended_state :
  let wr := play [PressKey "Escape"; ClickResume] in_play in
  match running in_play, running wr with
  | Some l, Some lr =>
      lt (b_x (ball lr)) (b_x (ball l)) = true
      /\ lt (pad_y (paddle1 lr)) (pad_y (paddle1 l)) = true
      /\ key_s (keys l) = true /\ key_s (keys lr) = false
      /\ ball lr = moved init_ball /\ paddle1 lr = init_paddle
  | _, _ => False
  end.
Proof. vm_compute. repeat split. Qed.

Lemma pause_suspends_resume_restarts_witness :
  let tr := [(no_random, ClickSettings); (no_random, PickTheme "neon");
             (no_random, ClickCloseSettings); (no_random, Frame)] in
  let w2 := steps tr (step no_random (PressKey "Escape") in_play) in
  running w2 = None
  /\ running (step no_random ClickResume w2)
     = Some (mkLoop (moved init_ball) init_paddle init_paddle init_keys []).
Proof.
  intros tr w2.
  assert (S : settled in_play).
  { apply reachable_settled. apply play_reachable. apply reach_mount. }
  assert (F : Forall (fun ri : (nat -> float) * Input =>
                        stays_paused (snd ri) = true) tr)
    by (repeat constructor).
  destruct (pause_suspends_resume_restarts no_random no_random tr in_play _
              S in_play_running) as (_ & _ & _ & A & _ & _ & _ & _ & _ & B);
    [vm_compute; lia | vm_compute; lia | exact F |].
  split; [exact A|exact B].
Defined.

Lemma busy_point_running : running busy_point = Some busy_loop.
Proof. vm_compute. reflexivity. Qed.

(** At the busy first point the old loop has player 1's paddle at 500.4,
    player 2's at 366.8, the [s] and ArrowUp flags set and 90 particles; the
    render after the scoring frame leaves a loop with none of that. *)
Lemma point_recreates_loop_witness :
  gt (pad_y (paddle1 busy_loop)) 500 = true
  /\ gt (pad_y (paddle2 busy_loop)) 366 = true
  /\ key_s (keys busy_loop) = true /\ key_ArrowUp (keys busy_loop) = true
  /\ List.length (particles busy_loop) = 90
  /\ scored (snd (update no_random busy_loop)) = 1
  /\ exists l1,
       running (commit no_random (handle no_random Frame busy_point))
       = Some l1
       /\ pad_y (paddle1 l1) = 250%float /\ pad_y (paddle2 l1) = 250%float
       /\ particles l1 = [] /\ keys l1 = init_keys
       /\ running (step no_random Frame busy_point) = Some l1.
Proof.
  assert (P : scored (snd (update no_random busy_loop)) = 1)
    by (vm_compute; reflexivity).
  split; [vm_compute; reflexivity|]. split; [vm_compute; reflexivity|].
  split; [vm_compute; reflexivity|]. split; [vm_compute; reflexivity|].
  split; [vm_compute; reflexivity|]. split; [exact P|].
  assert (S : settled busy_point).
  { apply reachable_settled. apply play_reachable. apply reach_mount. }
  destruct (point_recreates_loop no_random busy_point busy_loop S
              busy_point_running P)
    as (l1 & A & _ & _ & _ & B1 & B2 & C & D & _ & E).
  exists l1. split; [exact A|]. split; [exact B1|]. split; [exact B2|].
  split; [exact C|]. split; [exact D|].
  apply E; vm_compute; lia.
Defined.

Lemma match_point_running :
  running (idle_match (14 * 1360 + 1359)) = Some (frames 1360 init_loop).
Proof. vm_compute. reflexivity. Qed.

Lemma first_to_fifteen_ends_match_witness :
  let w := idle_match (14 * 1360 + 1359) in
  score (react w) = mkScore 14 0
  /\ winner (react (step no_random Frame w)) = Some "Player 1"%string
  /\ running (step no_random Frame w) = None.
Proof.
  intros w.
  assert (S : settled w).
  { apply reachable_settled. apply play_reachable. apply reach_mount. }
  assert (P1 : player1 (score (react w)) < 15) by (vm_compute; lia).
  assert (P2 : player2 (score (react w)) < 15) by (vm_compute; lia).
  destruct (first_to_fifteen_ends_match no_random no_random w _ S
              match_point_running P1 P2) as (H & _).
  split; [vm_compute; reflexivity|].
  destruct H as (A & _ & B & _); [vm_compute; reflexivity|].
  split; [exact A|exact B].
Defined.

(** * Further properties of the loop *)



Lemma paddle_sounds l :
  sounds paddleHitSound (requests l) = if paddleHit l then 1 else 0.
Proof.
  unfold requests. rewrite !sounds_app.
  destruct (wallHit l); destruct (paddleHit l);
    destruct (pastLeft _); try reflexivity;
    destruct (pastRight _); reflexivity.
Qed.

Lemma score_sounds l : sounds scoreSound (requests l) = scored (requests l).
Proof.
  rewrite scored_requests. unfold requests. rewrite !sounds_app.
  destruct (wallHit l); destruct (paddleHit l);
    destruct (pastLeft _); try reflexivity;
    destruct (pastRight _); reflexivity.
Qed.

(** X2. When the moved ball overlaps a paddle's band within the paddle's
    span, the frame asks for the paddle-hit sound once and appends 15
    particles at the ball's position, each with life 1, after those of a wall
    hit in the same frame; unless the frame also awards a point, the
    horizontal velocity ends negated.  Without such an overlap there is no
    paddle-hit sound, and without a point the horizontal velocity is kept. *)
Theorem paddle_bounce (random : nat -> float) (l : Loop) :
  let b := moved (ball l) in
  let l' := fst (update random l) in
  let rq := snd (update random l) in
  let r0 := if wallHit l then 20 else 0 in
  (paddleHit l = true ->
     sounds paddleHitSound rq = 1
     /\ (exists before,
           particles l'
           = updateParticles (before ++ burst random (b_x b) (b_y b) 15 r0)
           /\ (wallHit l = false -> before = particles l))
     /\ List.length (burst random (b_x b) (b_y b) 15 r0) = 15
     /\ (forall p, In p (burst random (b_x b) (b_y b) 15 r0) ->
           p_x p = b_x b /\ p_y p = b_y b /\ p_life p = 1%float)
     /\ (scored rq = 0 -> b_dx (ball l') = (- b_dx (ball l))%float))
  /\ (paddleHit l = false ->
        sounds paddleHitSound rq = 0
        /\ (scored rq = 0 -> b_dx (ball l') = b_dx (ball l))).
Proof.
  cbv zeta.
  rewrite update_requests, update_particles, update_ball, paddle_sounds,
    scored_requests.
  destruct (afterScore_velocity l) as [Ex _]. rewrite Ex.
  destruct (burst_spec random (b_x (moved (ball l))) (b_y (moved (ball l)))
              15 (if wallHit l then 20 else 0)) as [BL BP].
  split; intros H; rewrite H.
  - split; [reflexivity|]. split.
    { unfold spawned. rewrite H, app_assoc. eexists. split; [reflexivity|].
      intros W. rewrite W. apply app_nil_r. }
    split; [exact BL|]. split; [exact BP|].
    destruct (pastLeft _); [discriminate|].
    destruct (pastRight _); [discriminate|reflexivity].
  - split; [reflexivity|].
    destruct (pastLeft _); [discriminate|].
    destruct (pastRight _); [discriminate|reflexivity].
Qed.

(** X3. Sounds of a frame: the score sound is asked for exactly once per
    point awarded, the wall-hit and paddle-hit sounds at most once each, and a
    frame issues at most four requests. *)
Theorem frame_sounds (random : nat -> float) (l : Loop) :
  let rq := snd (update random l) in
  sounds scoreSound rq = scored rq
  /\ sounds wallHitSound rq <= 1
  /\ sounds paddleHitSound rq <= 1
  /\ List.length rq
     = sounds wallHitSound rq + sounds paddleHitSound rq + 2 * scored rq
  /\ List.length rq <= 4.
Proof.
  cbv zeta. rewrite update_requests.
  rewrite score_sounds, wall_sounds, paddle_sounds, scored_requests.
  unfold requests. rewrite !length_app.
  destruct (wallHit l), (paddleHit l), (pastLeft (moved (ball l))),
    (pastRight (moved (ball l))); cbn; repeat split; lia.
Qed.

(** ** How long particles live and how many there are *)

Lemma updateParticles_cons p ps :
  updateParticles (p :: ps)
  = if gt (p_life p - 0.005) 0 then age p :: updateParticles ps
    else updateParticles ps.
Proof. reflexivity. Qed.

Lemma updateParticles_app a b :
  updateParticles (a ++ b) = updateParticles a ++ updateParticles b.
Proof. unfold updateParticles. now rewrite map_app, filter_app. Qed.

(** Particles of one age survive an advance together or not at all. *)
Lemma updateParticles_uniform k ps :
  k <= 199 -> Forall (fun p => p_life p = life_at k) ps ->
  Forall (fun p => p_life p = life_at (S k)) (updateParticles ps)
  /\ (S k <= 199 -> updateParticles ps = map age ps)
  /\ (k = 199 -> updateParticles ps = []).
Proof.
  intros Hk H. destruct (life_facts k Hk) as (_ & _ & _ & F & _).
  cbn [life_at] in F.
  induction H as [|p ps Hp _ IH].
  - repeat split; constructor.
  - destruct IH as (I1 & I2 & I3).
    rewrite updateParticles_cons, Hp.
    destruct (gt (life_at k - 0.005) 0) eqn:G.
    + assert (Hs : S k <= 199) by (apply F; reflexivity).
      split; [|split].
      * constructor; [cbn; now rewrite Hp|exact I1].
      * intros _. cbn [map]. now rewrite I2.
      * intros ->. lia.
    + split; [exact I1|]. split.
      * intros Hs. apply F in Hs. discriminate.
      * exact I3.
Qed.

Lemma advance_uniform n : forall k ps,
  k + n <= 199 -> Forall (fun p => p_life p = life_at k) ps ->
  List.length (advance n ps) = List.length ps
  /\ Forall (fun p => p_life p = life_at (k + n)) (advance n ps).
Proof.
  induction n as [|n IH]; intros k ps Hk H; cbn [advance].
  - rewrite Nat.add_0_r. now split.
  - destruct (updateParticles_uniform k ps) as (U1 & U2 & _); [lia|exact H|].
    destruct (IH (S k) (updateParticles ps)) as [L F]; [lia|exact U1|].
    split; [rewrite L, U2 by lia; apply length_map|].
    now replace (k + S n) with (S k + n) by lia.
Qed.

(** X4. A burst lasts exactly 200 frames: after any number n <= 199 of
    advances all of its particles are still there, each with the life of a
    particle aged n times, and the 200th advance removes them all. *)
Theorem burst_lasts_200_frames (random : nat -> float) (x y : float)
    (count r : nat) :
  let ps := burst random x y count r in
  (forall n, n <= 199 ->
     List.length (advance n ps) = count
     /\ Forall (fun p => p_life p = life_at n) (advance n ps))
  /\ advance 200 ps = [].
Proof.
  intros ps.
  destruct (burst_spec random x y count r) as [BL BP]. fold ps in BL, BP.
  assert (F0 : Forall (fun p => p_life p = life_at 0) ps).
  { apply Forall_forall. intros p Hp. now apply BP. }
  split.
  - intros n Hn. destruct (advance_uniform n 0 ps) as [L F]; [lia|exact F0|].
    now rewrite L, BL.
  - destruct (advance_uniform 199 0 ps) as [_ F]; [lia|exact F0|].
    change 200 with (199 + 1). 
    assert (A : forall a b qs, advance (a + b) qs = advance b (advance a qs)).
    { induction a as [|a IH]; intros b qs; [reflexivity|apply IH]. }
    rewrite A. cbn [advance].
    now apply (updateParticles_uniform 199 (advance 199 ps)).
Qed.

Lemma aged_groups_bound a : forall gs,
  aged_groups a gs -> List.length (List.concat gs) <= 25 * a.
Proof.
  induction a as [|a IH]; intros [|g gs] H; cbn in H; try contradiction.
  - cbn. lia.
  - destruct H as (L & _ & H). cbn [List.concat]. rewrite length_app.
    specialize (IH gs H). lia.
Qed.

Lemma aged_groups_advance a : forall gs fresh,
  a <= 198 -> aged_groups a gs ->
  List.length fresh <= 25 -> Forall (fun p => p_life p = life_at 0) fresh ->
  exists gs', updateParticles (List.concat gs ++ fresh) = List.concat gs'
              /\ aged_groups (S a) gs'.
Proof.
  induction a as [|a IH]; intros [|g gs] fresh Ha H L F; cbn in H;
    try contradiction.
  - destruct (updateParticles_uniform 0 fresh) as (U1 & U2 & _); [lia|exact F|].
    exists [updateParticles fresh]. cbn [List.concat app]. rewrite app_nil_r.
    split; [reflexivity|]. cbn. split; [|split; [exact U1|exact I]].
    rewrite U2 by lia. now rewrite length_map.
  - destruct H as (Lg & Fg & H).
    destruct (IH gs fresh) as (gs' & E & A'); [lia|exact H|exact L|exact F|].
    destruct (updateParticles_uniform (S a) g) as (U1 & U2 & _);
      [lia|exact Fg|].
    exists (updateParticles g :: gs'). cbn [List.concat].
    rewrite <- app_assoc, updateParticles_app, E. split; [reflexivity|].
    cbn. split; [|split; [exact U1|exact A']].
    rewrite U2 by lia. now rewrite length_map.
Qed.

Lemma spawned_fresh random l :
  exists fresh, spawned random l = particles l ++ fresh
    /\ List.length fresh <= 25
    /\ Forall (fun p => p_life p = life_at 0) fresh.
Proof.
  unfold spawned. eexists. split; [reflexivity|]. split.
  - rewrite length_app.
    destruct (wallHit l), (paddleHit l); cbn [List.length];
      rewrite ?(proj1 (burst_spec _ _ _ _ _)); lia.
  - apply Forall_app. split; [destruct (wallHit l)|destruct (paddleHit l)];
      try apply Forall_nil; apply Forall_forall; intros p Hp;
      now apply burst_spec in Hp.
Qed.

Lemma aged_groups_empty a :
  aged_groups a (repeat [] a) /\ List.concat (repeat (@nil Particle) a) = [].
Proof.
  induction a as [|a [IH1 IH2]]; [split; [exact I|reflexivity]|].
  cbn [repeat aged_groups List.concat app]. split; [|exact IH2].
  split; [cbn; lia|]. split; [constructor|exact IH1].
Qed.

Lemma run_loop_aged_groups ins :
  exists gs, particles (run_loop ins init_loop) = List.concat gs
             /\ aged_groups 199 gs.
Proof.
  apply run_loop_ind.
  - exists (repeat [] 199). destruct (aged_groups_empty 199) as [A E].
    split; [now rewrite E|exact A].
  - intros random l ([|g gs] & E & A); [contradiction|].
    cbn in A. destruct A as (Lg & Fg & A).
    rewrite update_particles.
    destruct (spawned_fresh random l) as (fresh & -> & Lf & Ff).
    rewrite E. cbn [List.concat]. rewrite <- app_assoc, updateParticles_app.
    destruct (updateParticles_uniform 199 g) as (_ & _ & U3);
      [lia|exact Fg|].
    rewrite (U3 eq_refl). cbn [app]. now apply aged_groups_advance.
  - intros ks l H. exact H.
Qed.

(** X5. A frame adds at most 25 particles (10 for a wall hit, 15 for a
    paddle hit) and none without a hit; and however long a loop runs and
    whatever the inputs, its collection never holds more than 199 * 25 = 4975
    particles. *)
Theorem particles_bounded (ins : list LoopInput) (random : nat -> float) :
  let l := run_loop ins init_loop in
  let l' := fst (update random l) in
  List.length (particles l')
  <= List.length (particles l)
     + (if wallHit l then 10 else 0) + (if paddleHit l then 15 else 0)
  /\ List.length (particles l) <= 4975
  /\ List.length (particles l') <= 4975.
Proof.
  intros l l'. split; [|split].
  - subst l'. rewrite update_particles. unfold updateParticles.
    etransitivity; [apply filter_length_le|].
    rewrite length_map. unfold spawned. rewrite !length_app.
    destruct (wallHit l), (paddleHit l); cbn [List.length];
      rewrite ?(proj1 (burst_spec _ _ _ _ _)); lia.
  - destruct (run_loop_aged_groups ins) as (gs & E & A). fold l in E.
    rewrite E. apply (aged_groups_bound 199 gs A).
  - destruct (run_loop_aged_groups (ins ++ [Tick random])) as (gs & E & A).
    rewrite run_loop_snoc in E. cbn [loop_input] in E. fold l in E.
    fold l' in E. rewrite E. apply (aged_groups_bound 199 gs A).
Qed.

(** ** The ball and the top and bottom edges *)

Lemma near_surface_always v : yreach v -> near_surface v = true.
Proof. apply yreach_check; vm_compute; reflexivity. Qed.

(** X6. However long a loop runs and whatever the inputs, the ball's top
    edge is never more than 0.3 above the surface and its bottom edge never
    more than 0.3 below it: a wall hit is answered within one frame's
    travel. *)
Theorem ball_stays_near_surface (ins : list LoopInput) :
  let b := ball (run_loop ins init_loop) in
  (-0.3 <=? b_y b - b_radius b)%float = true
  /\ (b_y b + b_radius b <=? 600.3)%float = true.
Proof.
  intros b.
  assert (N : near_surface (vert b) = true)
    by (apply near_surface_always, run_loop_yreach).
  unfold near_surface, vert in N. cbn [fst] in N.
  apply andb_true_iff in N. subst b. now rewrite run_loop_radius.
Qed.

(** ** Paddles *)

Lemma movePaddle_y up down p :
  pad_y (movePaddle up down p)
  = (let y1 := if up && gt (pad_y p) 0
               then pad_y p - pad_speed p else pad_y p in
     if down && lt y1 (canvas_height - paddleHeight)
     then y1 + pad_speed p else y1)%float
  /\ pad_speed (movePaddle up down p) = pad_speed p.
Proof.
  unfold movePaddle. cbv zeta.
  destruct (up && gt (pad_y p) 0); cbn [pad_y pad_speed];
    match goal with |- context [if ?c then _ else _] => destruct c end;
    split; reflexivity.
Qed.

(** X7. How the paddles move. In every frame of a running loop player 1's
    paddle follows w and s and player 2's follows ArrowUp and ArrowDown: the
    up key, if held while y > 0, takes 0.4 off y; then the down key, if held
    while the resulting y < 500, adds 0.4.  So a paddle whose up key alone is
    held moves up by exactly 0.4 when y > 0 and stays when not, one whose down
    key alone is held moves down by exactly 0.4 when y < 500 and stays when
    not, one with neither key held stays, and the speed is 0.4 throughout. *)
Theorem paddle_guards (ins : list LoopInput) (random : nat -> float) :
  let l := run_loop ins init_loop in
  let l' := fst (update random l) in
  let ks := keys l in
  let step_y (up down : bool) (y : float) :=
    (let y1 := if up && gt y 0 then y - 0.4 else y in
     if down && lt y1 (canvas_height - paddleHeight) then y1 + 0.4 else y1)
    %float in
  pad_y (paddle1 l') = step_y (key_w ks) (key_s ks) (pad_y (paddle1 l))
  /\ pad_y (paddle2 l')
     = step_y (key_ArrowUp ks) (key_ArrowDown ks) (pad_y (paddle2 l))
  /\ pad_speed (paddle1 l') = 0.4%float /\ pad_speed (paddle2 l') = 0.4%float
  /\ (key_w ks = true -> key_s ks = false ->
      gt (pad_y (paddle1 l)) 0 = true ->
      pad_y (paddle1 l') = (pad_y (paddle1 l) - 0.4)%float)
  /\ (key_s ks = true -> key_w ks = false ->
      lt (pad_y (paddle1 l)) (canvas_height - paddleHeight) = true ->
      pad_y (paddle1 l') = (pad_y (paddle1 l) + 0.4)%float)
  /\ (key_ArrowUp ks = true -> key_ArrowDown ks = false ->
      gt (pad_y (paddle2 l)) 0 = true ->
      pad_y (paddle2 l') = (pad_y (paddle2 l) - 0.4)%float)
  /\ (key_ArrowDown ks = true -> key_ArrowUp ks = false ->
      lt (pad_y (paddle2 l)) (canvas_height - paddleHeight) = true ->
      pad_y (paddle2 l') = (pad_y (paddle2 l) + 0.4)%float)
  /\ paddle1 l' = movePaddle (key_w ks) (key_s ks) (paddle1 l)
  /\ paddle2 l' = movePaddle (key_ArrowUp ks) (key_ArrowDown ks) (paddle2 l)
  /\ (forall p, movePaddle false false p = p)
  /\ (forall p, gt (pad_y p) 0 = false -> movePaddle true false p = p)
  /\ (forall p, lt (pad_y p) (canvas_height - paddleHeight) = false ->
        movePaddle false true p = p)
  /\ (forall up down p,
        pad_speed (movePaddle up down p) = pad_speed p).
Proof.
  cbv zeta.
  assert (SP : pad_speed (paddle1 (run_loop ins init_loop)) = 0.4%float
               /\ pad_speed (paddle2 (run_loop ins init_loop)) = 0.4%float).
  { apply run_loop_ind.
    - split; reflexivity.
    - intros r l [H1 H2]. destruct (update_paddles r l) as [-> ->].
      unfold paddlesMoved. cbn [fst snd].
      now rewrite !(proj2 (movePaddle_y _ _ _)).
    - intros ks l H. exact H. }
  destruct SP as [S1 S2]. revert S1 S2.
  generalize (run_loop ins init_loop). intros l S1 S2.
  destruct (update_paddles random l) as [-> ->].
  unfold paddlesMoved. cbn [fst snd].
  destruct (movePaddle_y (key_w (keys l)) (key_s (keys l)) (paddle1 l))
    as [Y1 V1].
  destruct (movePaddle_y (key_ArrowUp (keys l)) (key_ArrowDown (keys l))
              (paddle2 l)) as [Y2 V2].
  cbv zeta in Y1, Y2. rewrite S1 in Y1, V1. rewrite S2 in Y2, V2.
  split; [exact Y1|]. split; [exact Y2|].
  split; [exact V1|]. split; [exact V2|].
  split; [intros A B G; rewrite Y1, A, B, G; reflexivity|].
  split; [intros A B G; rewrite Y1, A, B; cbn [andb]; rewrite G;
          reflexivity|].
  split; [intros A B G; rewrite Y2, A, B, G; reflexivity|].
  split; [intros A B G; rewrite Y2, A, B; cbn [andb]; rewrite G;
          reflexivity|].
  split; [reflexivity|]. split; [reflexivity|].
  split; [reflexivity|].
  split; [intros p H; unfold movePaddle; cbn [andb]; now rewrite H|].
  split; [intros p H; unfold movePaddle; cbn [andb]; now rewrite H|].
  intros up down p. apply movePaddle_y.
Qed.

(** One frame with [w] held from the start position: player 1's paddle is
    at 250 - 0.4. *)
Lemma paddle_guards_witness :
  pad_y (paddle1 (fst (update no_random
                         (run_loop [Tick no_random; KeyDown "w"] init_loop))))
  = (250 - 0.4)%float.
Proof.
  destruct (paddle_guards [Tick no_random; KeyDown "w"] no_random)
    as (_ & _ & _ & _ & H & _).
  rewrite H; reflexivity.
Defined.

(** * Further properties of the session *)

(** A state change that touches no dependency of either effect leaves the
    loop and the effects alone. *)
Lemma ui_only_change random s' w :
  settled w ->
  loopDeps s' = loopDeps (react w) -> winDeps s' = winDeps (react w) ->
  settle random (with_react s' w) = with_react s' w.
Proof.
  intros (C & L & W) EL EW. apply settled_settle.
  unfold settled. cbn [with_react react loop_ran winner_ran].
  rewrite EL, EW. split; [|split; assumption].
  destruct C as (d & Hd & C). exists d. split; [exact Hd|exact C].
Qed.

(** A state change that touches a dependency of the game-loop effect, in a
    game that is not over, replaces the loop by a fresh one (or none). *)
Lemma settle_restart random s' w :
  settled w ->
  loopDeps_eqb (loopDeps (react w)) (loopDeps s') = false ->
  (15 <=? player1 (score s')) || (15 <=? player2 (score s')) = false ->
  settle random (with_react s' w)
  = mkWorld s'
      (if gameStarted s' && negb (gamePaused s')
       then Some (fst (update random init_loop)) else None)
      (Some (loopDeps s')) (Some (winDeps s')).
Proof.
  intros (_ & L & W) D F. rewrite settle_eq. cbv zeta.
  cbn [with_react react running loop_ran winner_ran].
  rewrite L, W. cbn [same_deps]. rewrite (winnerEffect_idle s' F).
  assert (E : (if winDeps_eqb (winDeps (react w)) (winDeps s')
               then s' else s') = s')
    by (destruct (winDeps_eqb _ _); reflexivity).
  rewrite E, D.
  assert (L0 : loopDeps_eqb (loopDeps s') (loopDeps s') = true)
    by now apply loopDeps_eqb_eq.
  now rewrite L0.
Qed.

(** X8. Rendering terminates: after the two renders that follow an input,
    a further render, with whatever random draws, changes nothing; and from a
    world in which a loop runs exactly when the effect last saw the game
    playing, the result has every effect up to date. *)
Theorem renders_reach_fixed_point (random random' : nat -> float) (w : World) :
  commit random' (settle random w) = settle random w
  /\ (coherent w -> settled (settle random w)).
Proof.
  split; [|apply settle_settled].
  rewrite settle_eq. cbv zeta. rewrite commit_eq.
  cbn [react running loop_ran winner_ran].
  now rewrite same_winDeps_refl, same_loopDeps_refl.
Qed.

(** X9. In every reachable world a loop is running exactly when the game
    is started and not paused; in particular none runs before the start,
    during a pause entered with Escape, or after the match has ended. *)
Theorem loop_runs_iff_playing (w : World) :
  reachable w ->
  ((exists l, running w = Some l)
   <-> gameStarted (react w) = true /\ gamePaused (react w) = false).
Proof.
  intros H. apply reachable_settled in H.
  pose proof (settled_running w H) as R. split.
  - intros [l E]. now apply (settled_playing w l).
  - intros [G P]. destruct (running w) as [l|]; [now exists l|].
    destruct R as [R _]. specialize (R eq_refl). rewrite G, P in R.
    discriminate.
Qed.

Lemma loop_runs_iff_playing_witness :
  (exists l, running in_play = Some l)
  <-> gameStarted (react in_play) = true /\ gamePaused (react in_play) = false.
Proof.
  apply loop_runs_iff_playing. apply play_reachable. apply reach_mount.
Defined.



(** X11. Quit: with the pause menu up, Quit stops the game, clears the
    pause and the menu, puts both counters back to 0, clears the winner and
    leaves no loop running. *)
Theorem quit_resets (random : nat -> float) (w : World) :
  settled w -> showPauseMenu (react w) = true ->
  let w' := step random ClickQuit w in
  gameStarted (react w') = false /\ gamePaused (react w') = false
  /\ showPauseMenu (react w') = false
  /\ score (react w') = mkScore 0 0 /\ winner (react w') = None
  /\ running w' = None.
Proof.
  intros S M w'.
  assert (E : react w' = handleQuit (react w)).
  { subst w'. unfold step, handle. rewrite M.
    rewrite settle_react; cbn; [reflexivity|lia|lia]. }
  assert (S' : settled w') by now apply step_settled.
  rewrite E. cbn. repeat split.
  apply (settled_running w' S'). now rewrite E.
Qed.

Lemma quit_resets_witness :
  let w := step no_random (PressKey "Escape") (idle_match 1400) in
  score (react w) = mkScore 1 0
  /\ score (react (step no_random ClickQuit w)) = mkScore 0 0.
Proof.
  intros w. split; [vm_compute; reflexivity|].
  assert (S : settled w).
  { apply reachable_settled. apply reach_step. apply play_reachable.
    apply reach_mount. }
  apply (quit_resets no_random w S). vm_compute. reflexivity.
Defined.

(** X12. Starting takes two clicks. While no game is started and the
    controls are not shown, the Play button (also as "Play Again" after a
    match) only shows the controls: score, winner and the stopped loop stay
    as they are.  With the controls shown, the next click starts the game:
    counters at 0, no winner, not paused, controls hidden, and a fresh loop
    running with its first frame done. *)
Theorem start_takes_two_clicks (random : nat -> float) (w : World) :
  settled w -> gameStarted (react w) = false -> showSettings (react w) = false ->
  let w' := step random ClickPlay w in
  (showControls (react w) = false ->
     showControls (react w') = true /\ gameStarted (react w') = false
     /\ score (react w') = score (react w)
     /\ winner (react w') = winner (react w) /\ running w' = None)
  /\ (showControls (react w) = true ->
        gameStarted (react w') = true /\ gamePaused (react w') = false
        /\ showControls (react w') = false
        /\ score (react w') = mkScore 0 0 /\ winner (react w') = None
        /\ running w'
           = Some (mkLoop (moved init_ball) init_paddle init_paddle
                          init_keys [])).
Proof.
  intros S G St w'.
  assert (R : running w = None).
  { apply (settled_running w S). now rewrite G. }
  assert (S' : settled w') by now apply step_settled.
  split; intros C.
  - assert (E : w' = with_react (setShowControls true (react w)) w).
    { subst w'. unfold step, handle, handleStart. rewrite G, St, C.
      cbn [andb negb orb]. now apply ui_only_change. }
    rewrite E. cbn. repeat split; assumption.
  - assert (E : react w' = handleStart (react w)).
    { subst w'. unfold step, handle. rewrite G, St. cbn [andb negb orb].
      rewrite settle_react; unfold handleStart; rewrite G, C; cbn;
        [reflexivity|lia|lia]. }
    assert (V : handleStart (react w)
                = setShowPauseMenu false (setGamePaused false (setWinner None
                    (setScore (fun _ => mkScore 0 0)
                       (setShowControls false
                          (setGameStarted true (react w))))))).
    { unfold handleStart. now rewrite G, C. }
    assert (D : loopDeps_eqb (loopDeps (react w))
                  (loopDeps (handleStart (react w))) = false).
    { destruct (loopDeps_eqb _ _) eqn:Q; [|reflexivity].
      apply loopDeps_eqb_eq in Q. apply (f_equal d_started) in Q.
      rewrite V in Q. cbn in Q. congruence. }
    assert (X : w' = mkWorld (handleStart (react w))
                       (Some (fst (update random init_loop)))
                       (Some (loopDeps (handleStart (react w))))
                       (Some (winDeps (handleStart (react w))))).
    { subst w'. unfold step, handle. rewrite G, St. cbn [andb negb orb].
      rewrite (settle_restart random _ w S D) by (rewrite V; reflexivity).
      rewrite V. reflexivity. }
    rewrite X. cbn [react running]. rewrite V, first_frame.
    cbn. repeat split.
Qed.

Lemma start_takes_two_clicks_witness :
  showControls (react (step no_random ClickPlay mount)) = true
  /\ running (step no_random ClickPlay mount) = None.
Proof.
  destruct (start_takes_two_clicks no_random mount mount_settled)
    as [H _]; [reflexivity|reflexivity|].
  destruct H as (A & _ & _ & _ & B); [reflexivity|]. now split.
Defined.

(** X13. Settings, volume and menu controls never touch the game: the
    Pause and Settings buttons, closing the settings, the music switch and
    both volume sliders leave the running loop (or its absence), the score,
    the winner and the started and paused flags exactly as they are. *)
Theorem ui_controls_leave_game_alone (random : nat -> float) (i : Input)
    (w : World) :
  settled w -> ui_only i = true ->
  let w' := step random i w in
  running w' = running w
  /\ score (react w') = score (react w)
  /\ winner (react w') = winner (react w)
  /\ gameStarted (react w') = gameStarted (react w)
  /\ gamePaused (react w') = gamePaused (react w).
Proof.
  intros S U w'. subst w'. unfold step.
  assert (K : settle random w = w) by now apply settled_settle.
  destruct i; try discriminate U; unfold handle;
    repeat match goal with
           | |- context [if ?c then _ else _] => destruct c
           end;
    rewrite ?K; try (repeat split; reflexivity);
    rewrite ui_only_change by (try exact S; reflexivity);
    repeat split; reflexivity.
Qed.

Lemma ui_controls_leave_game_alone_witness :
  running (step no_random ClickSettings
             (step no_random ClickPause in_play))
  = running (step no_random ClickPause in_play).
Proof.
  assert (S : settled (step no_random ClickPause in_play)).
  { apply reachable_settled. apply reach_step. apply play_reachable.
    apply reach_mount. }
  apply (ui_controls_leave_game_alone no_random ClickSettings _ S eq_refl).
Defined.

(** X14. Without a running loop the loop's callbacks are gone: frames, key
    presses (Escape included) and key releases leave the whole world as it
    is, so Escape cannot pause a game that is not running. *)
Theorem no_loop_no_callbacks (random : nat -> float) (i : Input) (w : World) :
  settled w -> running w = None -> loop_bound i = true ->
  step random i w = w.
Proof.
  intros S R B. unfold step.
  destruct i; try discriminate B; unfold handle; rewrite R;
    now apply settled_settle.
Qed.

Lemma no_loop_no_callbacks_witness :
  step no_random (PressKey "Escape") mount = mount.
Proof.
  apply (no_loop_no_callbacks no_random _ mount mount_settled);
    reflexivity.
Defined.

(** X15. Picking a theme during play restarts the rally. With the settings
    open over a running game that is not over, choosing a theme other than
    the current one keeps the score but replaces the loop by a fresh one
    (ball back at the centre, paddles at 250, no particles, no key held);
    choosing the current theme again changes nothing in the loop. *)
Theorem theme_change_restarts_loop (random : nat -> float) (t : string)
    (w : World) (l : Loop) :
  settled w -> running w = Some l -> showSettings (react w) = true ->
  player1 (score (react w)) < 15 -> player2 (score (react w)) < 15 ->
  let w' := step random (PickTheme t) w in
  theme (settings (react w')) = t
  /\ score (react w') = score (react w)
  /\ (t <> theme (settings (react w)) ->
      running w'
      = Some (mkLoop (moved init_ball) init_paddle init_paddle init_keys []))
  /\ (t = theme (settings (react w)) -> running w' = Some l).
Proof.
  intros S R V P1 P2 w'. destruct (settled_playing w l S R) as [G P].
  set (s' := setSettings (fun p => mkSettings t (sfxVolume p) (musicVolume p)
                                     (sfxEnabled p) (musicEnabled p))
                         (react w)).
  assert (H : handle random (PickTheme t) w = with_react s' w)
    by (unfold handle; now rewrite V).
  subst w'. unfold step. rewrite H.
  destruct (String.eqb_spec t (theme (settings (react w)))) as [E|N].
  - rewrite ui_only_change; [|exact S| |reflexivity].
    + cbn. repeat split; try assumption; intros; congruence.
    + unfold s', loopDeps. cbn. now rewrite E.
  - rewrite settle_restart; [|exact S| |].
    + cbn [react running].
      change (gameStarted s') with (gameStarted (react w)).
      change (gamePaused s') with (gamePaused (react w)).
      rewrite G, P, first_frame. cbn [andb negb fst].
      split; [reflexivity|]. split; [reflexivity|].
      split; [reflexivity|congruence].
    + destruct (loopDeps_eqb _ _) eqn:Q; [|reflexivity].
      apply loopDeps_eqb_eq in Q. apply (f_equal d_theme) in Q.
      cbn in Q. congruence.
    + apply Nat.leb_gt in P1, P2. change (score s') with (score (react w)).
      now rewrite P1, P2.
Qed.

Lemma theme_change_restarts_loop_witness :
  let w := play [ClickPause; ClickSettings] in_play in
  running (step no_random (PickTheme "neon") w)
  = Some (mkLoop (moved init_ball) init_paddle init_paddle init_keys []).
Proof.
  intros w.
  assert (S : settled w).
  { apply reachable_settled. apply play_reachable. apply play_reachable.
    apply reach_mount. }
  assert (R : running w
              = Some (run_loop [Tick no_random; KeyDown "s"; Tick no_random;
                                Tick no_random; Tick no_random] init_loop))
    by (vm_compute; reflexivity).
  destruct (theme_change_restarts_loop no_random "neon" w _ S R)
    as (_ & _ & H & _);
    [vm_compute; reflexivity | vm_compute; lia | vm_compute; lia |].
  apply H. vm_compute. discriminate.
Defined.

(** ** Score and winner over whole sessions *)

Lemma winnerEffect_ok s : score_ok s -> winnerEffect s s = s.
Proof.
  intros [(W & P1 & P2) | [(W & G & P1 & P2) | (W & G & P2 & P1)]].
  - apply winnerEffect_idle. apply Nat.leb_gt in P1, P2. now rewrite P1, P2.
  - unfold winnerEffect. rewrite P1. cbn [Nat.leb].
    destruct s; cbn in *. now subst.
  - unfold winnerEffect.
    assert (A : (15 <=? player1 (score s)) = false) by now apply Nat.leb_gt.
    rewrite A, P2. cbn [Nat.leb]. destruct s; cbn in *. now subst.
Qed.

Lemma settle_react_ok random w :
  score_ok (react w) -> react (settle random w) = react w.
Proof.
  intros K. rewrite settle_eq. cbv zeta. cbn [react].
  destruct (same_deps winDeps_eqb _ _); [reflexivity|].
  now apply winnerEffect_ok.
Qed.

(** Changes that keep [gameStarted], the score and the winner keep
    [score_ok]. *)
Lemma score_ok_same s s' :
  gameStarted s' = gameStarted s -> score s' = score s ->
  winner s' = winner s -> score_ok s -> score_ok s'.
Proof. unfold score_ok. intros -> -> ->. exact (fun H => H). Qed.

Lemma score_ok_reset s :
  score s = mkScore 0 0 -> winner s = None -> score_ok s.
Proof. intros E W. left. rewrite E, W. cbn. repeat split; lia. Qed.

Lemma handle_score_ok random i w :
  score_ok (react w) -> (i = Frame -> running w = None) ->
  score_ok (react (handle random i w)).
Proof.
  intros K F. unfold handle. destruct i;
    try (destruct (running w) as [l|] eqn:R;
         [|exact K]);
    try (specialize (F eq_refl); discriminate F);
    repeat match goal with
           | |- context [if ?c then _ else _] => destruct c
           end;
    try exact K;
    try (apply (score_ok_same (react w)); [reflexivity ..|exact K]).
  - unfold with_react. cbn [react]. unfold handleStart.
    destruct (negb (gameStarted (react w)) && negb (showControls (react w))).
    + apply (score_ok_same (react w)); [reflexivity ..|exact K].
    + now apply score_ok_reset.
  - unfold with_react. cbn [react]. now apply score_ok_reset.
Qed.

Lemma frame_score_ok random w l :
  settled w -> running w = Some l -> score_ok (react w) ->
  score_ok (react (step random Frame w)).
Proof.
  intros S R K. destruct (settled_playing w l S R) as [G _].
  destruct K as [(W & P1 & P2) | [(_ & G' & _) | (_ & G' & _)]];
    try congruence.
  rewrite (frame_step random w l S R). cbv zeta.
  rewrite apply_requests_frame, scored_requests.
  destruct (pastLeft (moved (ball l)));
    [|destruct (pastRight (moved (ball l)))]; cbn [Nat.eqb].
  - set (s' := setScore _ (react w)).
    assert (A : (15 <=? player1 (score s')) = false)
      by (apply Nat.leb_gt; cbn; lia).
    destruct (15 <=? player2 (score s')) eqn:B.
    + destruct (winnerEffect_fired s') as (F1 & F2 & F3);
        [now rewrite A, B|]. rewrite A in F3.
      apply Nat.leb_le in B. cbn in B.
      right. right. cbn [react]. rewrite F1, F2, F3. cbn.
      repeat split; lia.
    + rewrite (winnerEffect_idle s') by now rewrite A, B.
      apply Nat.leb_gt in B. cbn in B.
      left. cbn. repeat split; [exact W|lia|lia].
  - set (s' := setScore _ (react w)).
    assert (B : (15 <=? player2 (score s')) = false)
      by (apply Nat.leb_gt; cbn; lia).
    destruct (15 <=? player1 (score s')) eqn:A.
    + destruct (winnerEffect_fired s') as (F1 & F2 & F3);
        [now rewrite A|]. rewrite A in F3.
      apply Nat.leb_le in A. cbn in A.
      right. left. cbn [react]. rewrite F1, F2, F3. cbn.
      repeat split; lia.
    + rewrite (winnerEffect_idle s') by now rewrite A, B.
      apply Nat.leb_gt in A. cbn in A.
      left. cbn. repeat split; [exact W|lia|lia].
  - left. cbn. repeat split; assumption.
Qed.

Lemma reachable_score_ok w : reachable w -> score_ok (react w).
Proof.
  induction 1 as [|random i w H IH].
  - left. vm_compute. repeat split; lia.
  - pose proof (reachable_settled w H) as S.
    destruct (running w) as [l|] eqn:R.
    + destruct i; try (unfold step; rewrite settle_react_ok;
        (apply handle_score_ok; [exact IH|discriminate])).
      now apply (frame_score_ok random w l).
    + unfold step. rewrite settle_react_ok;
        (apply handle_score_ok; [exact IH|intros _; exact R]).
Qed.

(** X16. Over every session: no counter ever exceeds 15 and the two are
    never both at 15; a winner is recorded exactly while a counter is at 15,
    "Player 1" for the first counter and "Player 2" for the second, and then
    the game is stopped; while the game is started both counters are below
    15 and no winner is recorded. *)
Theorem score_and_winner_agree (w : World) :
  reachable w ->
  let s := react w in
  player1 (score s) <= 15 /\ player2 (score s) <= 15
  /\ ~ (player1 (score s) = 15 /\ player2 (score s) = 15)
  /\ (winner s = Some "Player 1"%string <-> player1 (score s) = 15)
  /\ (winner s = Some "Player 2"%string <-> player2 (score s) = 15)
  /\ (winner s = None
      <-> player1 (score s) < 15 /\ player2 (score s) < 15)
  /\ (winner s <> None -> gameStarted s = false)
  /\ (gameStarted s = true ->
      winner s = None /\ player1 (score s) < 15 /\ player2 (score s) < 15).
Proof.
  intros H s. pose proof (reachable_score_ok w H) as K. fold s in K.
  destruct K as [(W & P1 & P2) | [(W & G & P1 & P2) | (W & G & P2 & P1)]];
    rewrite W; repeat split; intros; try lia; try congruence;
    try discriminate; try (destruct H0; lia).
Qed.

Lemma score_and_winner_agree_witness :
  let w := idle_match (15 * 1360) in
  winner (react w) = Some "Player 1"%string <-> player1 (score (react w)) = 15.
Proof.
  intros w.
  assert (H : reachable w) by (apply play_reachable; apply reach_mount).
  pose proof (score_and_winner_agree w H) as K. cbv zeta in K.
  destruct K as (_ & _ & _ & A & _). exact A.
Defined.

(** ** The running loop over whole sessions *)

Lemma run_loop_pad_speed ins :
  pad_speed (paddle1 (run_loop ins init_loop)) = 0.4%float
  /\ pad_speed (paddle2 (run_loop ins init_loop)) = 0.4%float.
Proof.
  apply run_loop_ind.
  - split; reflexivity.
  - intros random l [H1 H2]. destruct (update_paddles random l) as [-> ->].
    unfold paddlesMoved, movePaddle. cbn [fst snd].
    split;
      repeat match goal with
             | |- context [if ?c then _ else _] => destruct c
             end; cbn [pad_speed]; assumption.
  - intros ks l H. exact H.
Qed.

Lemma first_frame_reachable random :
  loop_reachable (Some (fst (update random init_loop))).
Proof. exists [Tick random]. reflexivity. Qed.

Lemma handle_loop_reachable random i w :
  loop_reachable (running w) -> loop_reachable (running (handle random i w)).
Proof.
  intros H. unfold handle. destruct (running w) as [l|] eqn:R.
  - destruct H as [ins E]. destruct i;
      try (repeat match goal with
                  | |- context [if ?c then _ else _] => destruct c
                  end;
           unfold with_react, with_running; cbn [running]; rewrite ?R;
           now exists ins).
    + destruct (update random l) as [l' rq] eqn:U.
      apply (f_equal fst) in U. cbn [fst] in U.
      unfold with_react, with_running. cbn [running].
      exists (ins ++ [Tick random]). rewrite run_loop_snoc. cbn [loop_input].
      now rewrite <- E.
    + destruct (String.eqb k "Escape").
      * unfold with_react. cbn [running]. rewrite R. now exists ins.
      * unfold with_running. cbn [running].
        exists (ins ++ [KeyDown k]). rewrite run_loop_snoc. now rewrite <- E.
    + unfold with_running. cbn [running].
      exists (ins ++ [KeyUp k]). rewrite run_loop_snoc. now rewrite <- E.
  - destruct i;
      repeat match goal with
             | |- context [if ?c then _ else _] => destruct c
             end;
      unfold with_react, with_running; cbn [running]; rewrite ?R; exact I.
Qed.

Lemma settle_loop_reachable random w :
  loop_reachable (running w) -> loop_reachable (running (settle random w)).
Proof.
  intros H. rewrite settle_eq. cbv zeta. cbn [running].
  repeat match goal with
         | |- context [if ?c then _ else _] => destruct c
         end; try exact H; try exact I; apply first_frame_reachable.
Qed.

Lemma reachable_loop_reachable w : reachable w -> loop_reachable (running w).
Proof.
  induction 1 as [|random i w _ IH]; [exact I|].
  unfold step. now apply settle_loop_reachable, handle_loop_reachable.
Qed.

(** X17. Whatever the user did before, the loop running in a reachable
    world has a ball of radius 8 whose velocity components both have
    magnitude 0.3 and whose top and bottom edges are within 0.3 of the
    surface, paddles of speed 0.4, and at most 4975 particles, each with life
    in (0, 1]. *)
Theorem running_loop_invariants (w : World) (l : Loop) :
  reachable w -> running w = Some l ->
  b_radius (ball l) = 8%float
  /\ abs (b_dx (ball l)) = 0.3%float /\ abs (b_dy (ball l)) = 0.3%float
  /\ (-0.3 <=? b_y (ball l) - b_radius (ball l))%float = true
  /\ (b_y (ball l) + b_radius (ball l) <=? 600.3)%float = true
  /\ pad_speed (paddle1 l) = 0.4%float /\ pad_speed (paddle2 l) = 0.4%float
  /\ List.length (particles l) <= 4975
  /\ (forall p, In p (particles l) ->
        gt (p_life p) 0 = true /\ (p_life p <=? 1)%float = true).
Proof.
  intros H R. pose proof (reachable_loop_reachable w H) as L.
  rewrite R in L. destruct L as [ins ->].
  destruct (vel_ok_abs _ (run_loop_vel_ok ins)) as [A1 A2].
  destruct (run_loop_pad_speed ins) as [S1 S2].
  pose proof (near_surface_always _ (run_loop_yreach ins)) as N.
  unfold near_surface, vert in N. cbn [fst] in N.
  apply andb_true_iff in N. rewrite <- (run_loop_radius ins) in N at 1 2.
  destruct (run_loop_aged_groups ins) as (gs & E & A).
  pose proof (run_loop_life_ok ins) as F. rewrite Forall_forall in F.
  split; [apply run_loop_radius|].
  split; [exact A1|]. split; [exact A2|].
  split; [apply N|]. split; [apply N|].
  split; [exact S1|]. split; [exact S2|].
  split; [rewrite E; apply (aged_groups_bound 199 gs A)|].
  intros p Hp. destruct (F p Hp) as (k & Hk & ->).
  destruct (life_facts k Hk) as (F1 & F2 & _). now split.
Qed.

Lemma running_loop_invariants_witness :
  abs (b_dx (ball (run_loop [Tick no_random; KeyDown "s"; Tick no_random;
                             Tick no_random; Tick no_random] init_loop)))
  = 0.3%float.
Proof.
  assert (H : reachable in_play) by (apply play_reachable; apply reach_mount).
  destruct (running_loop_invariants in_play _ H in_play_running)
    as (_ & A & _). exact A.
Defined.

(** ** Audio *)

Lemma slider_volume_ok n : n <= 100 ->
  volume_ok (number_of_nat n / 100) = true.
Proof.
  intros H.
  assert (A : forallb (fun k => volume_ok (number_of_nat k / 100))
                (seq 0 101) = true) by (vm_compute; reflexivity).
  rewrite forallb_forall in A. apply A. apply in_seq. lia.
Qed.

(** X18. Volumes: for slider positions 0..100 both volumes that
    [updateVolumes] sets are within [0, 1], the range an audio element
    accepts; a disabled channel gets volume 0, and position 100 gives exactly
    1. *)
Theorem volumes_in_range (st : GameSettings) :
  musicVolume st <= 100 -> sfxVolume st <= 100 ->
  volume_ok (music_volume (updateVolumes st)) = true
  /\ volume_ok (sfx_volume (updateVolumes st)) = true
  /\ (musicEnabled st = false -> music_volume (updateVolumes st) = 0%float)
  /\ (sfxEnabled st = false -> sfx_volume (updateVolumes st) = 0%float)
  /\ (musicEnabled st = true -> musicVolume st = 100 ->
      music_volume (updateVolumes st) = 1%float)
  /\ (sfxEnabled st = true -> sfxVolume st = 100 ->
      sfx_volume (updateVolumes st) = 1%float).
Proof.
  intros M S. unfold updateVolumes. cbn [music_volume sfx_volume].
  pose proof (slider_volume_ok _ M) as VM.
  pose proof (slider_volume_ok _ S) as VS.
  repeat split.
  - destruct (musicEnabled st); [exact VM|reflexivity].
  - destruct (sfxEnabled st); [exact VS|reflexivity].
  - now intros ->.
  - now intros ->.
  - intros -> ->. reflexivity.
  - intros -> ->. reflexivity.
Qed.

Lemma volumes_in_range_witness :
  volume_ok (music_volume (updateVolumes init_settings)) = true
  /\ volume_ok (sfx_volume (updateVolumes init_settings)) = true.
Proof.
  destruct (volumes_in_range init_settings) as (A & B & _);
    [cbn; lia | cbn; lia |]. now split.
Defined.

(** X19. The music follows the loop: in every reachable world the
    background music is playing exactly when a loop is running and music is
    enabled, so it stops with a pause entered by Escape, with Quit and at the
    end of the match. *)
Theorem music_follows_loop (w : World) :
  reachable w ->
  (musicPlaying (react w) = true
   <-> (exists l, running w = Some l)
       /\ musicEnabled (settings (react w)) = true).
Proof.
  intros H. apply reachable_settled in H.
  pose proof (settled_running w H) as R. unfold musicPlaying.
  rewrite andb_true_iff. split.
  - intros [P M]. split; [|exact M].
    destruct (running w) as [l|]; [now exists l|].
    destruct R as [R _]. rewrite (R eq_refl) in P. discriminate.
  - intros [[l E] M]. split; [|exact M].
    destruct (settled_playing w l H E) as [G P]. now rewrite G, P.
Qed.

Lemma music_follows_loop_witness :
  musicPlaying (react in_play) = true
  <-> (exists l, running in_play = Some l)
      /\ musicEnabled (settings (react in_play)) = true.
Proof.
  apply music_follows_loop. apply play_reachable. apply reach_mount.
Defined.

(** ** More on pause, settings and serves *)

(** X20. Resume after the Pause button: when the pause menu was brought up
    by the button (so the game is not paused), Resume only hides the menu;
    the loop goes on from exactly the state it has, unlike after Escape. *)
Theorem resume_after_button_continues (random : nat -> float) (w : World)
    (l : Loop) :
  settled w -> running w = Some l -> showPauseMenu (react w) = true ->
  let w' := step random ClickResume w in
  showPauseMenu (react w') = false /\ gamePaused (react w') = false
  /\ score (react w') = score (react w)
  /\ running w' = Some l.
Proof.
  intros S R M w'. destruct (settled_playing w l S R) as [G P].
  assert (E : w' = with_react (handleResume (react w)) w).
  { subst w'. unfold step, handle. rewrite M.
    apply ui_only_change; [exact S| |reflexivity].
    unfold loopDeps, handleResume. cbn. now rewrite P. }
  rewrite E. cbn. repeat split. exact R.
Qed.

Lemma resume_after_button_continues_witness :
  running (step no_random ClickResume (step no_random ClickPause in_play))
  = Some (run_loop [Tick no_random; KeyDown "s"; Tick no_random;
                    Tick no_random; Tick no_random] init_loop).
Proof.
  assert (S : settled (step no_random ClickPause in_play)).
  { apply reachable_settled. apply reach_step. apply play_reachable.
    apply reach_mount. }
  apply (resume_after_button_continues no_random _ _ S);
    vm_compute; reflexivity.
Defined.

(** X21. Switching sound effects during play restarts the rally: with the
    settings open over a running game that is not over, changing the
    sound-effects switch keeps the score but replaces the loop by a fresh one,
    because [playSound] is a dependency of the game-loop effect; setting the
    switch to the value it has leaves the loop alone. *)
Theorem sfx_switch_restarts_loop (random : nat -> float) (b : bool)
    (w : World) (l : Loop) :
  settled w -> running w = Some l -> showSettings (react w) = true ->
  player1 (score (react w)) < 15 -> player2 (score (react w)) < 15 ->
  let w' := step random (SwitchSfx b) w in
  sfxEnabled (settings (react w')) = b
  /\ score (react w') = score (react w)
  /\ (b <> sfxEnabled (settings (react w)) ->
      running w'
      = Some (mkLoop (moved init_ball) init_paddle init_paddle init_keys []))
  /\ (b = sfxEnabled (settings (react w)) -> running w' = Some l).
Proof.
  intros S R V P1 P2 w'. destruct (settled_playing w l S R) as [G P].
  set (s' := setSettings (fun p => mkSettings (theme p) (sfxVolume p)
                                     (musicVolume p) b (musicEnabled p))
                         (react w)).
  assert (H : handle random (SwitchSfx b) w = with_react s' w)
    by (unfold handle; now rewrite V).
  subst w'. unfold step. rewrite H.
  destruct (Bool.bool_dec b (sfxEnabled (settings (react w)))) as [E|N].
  - rewrite ui_only_change; [|exact S| |].
    + cbn. repeat split; try assumption; intros; congruence.
    + unfold s', loopDeps. cbn. now rewrite E.
    + unfold s', winDeps. cbn. now rewrite E.
  - rewrite settle_restart; [|exact S| |].
    + cbn [react running].
      change (gameStarted s') with (gameStarted (react w)).
      change (gamePaused s') with (gamePaused (react w)).
      rewrite G, P, first_frame. cbn [andb negb fst].
      split; [reflexivity|]. split; [reflexivity|].
      split; [reflexivity|congruence].
    + destruct (loopDeps_eqb _ _) eqn:Q; [|reflexivity].
      apply loopDeps_eqb_eq in Q. apply (f_equal d_playSound) in Q.
      cbn in Q. congruence.
    + apply Nat.leb_gt in P1, P2. change (score s') with (score (react w)).
      now rewrite P1, P2.
Qed.

Lemma sfx_switch_restarts_loop_witness :
  let w := play [ClickPause; ClickSettings] in_play in
  running (step no_random (SwitchSfx false) w)
  = Some (mkLoop (moved init_ball) init_paddle init_paddle init_keys []).
Proof.
  intros w.
  assert (S : settled w).
  { apply reachable_settled. apply play_reachable. apply play_reachable.
    apply reach_mount. }
  assert (R : running w
              = Some (run_loop [Tick no_random; KeyDown "s"; Tick no_random;
                                Tick no_random; Tick no_random] init_loop))
    by (vm_compute; reflexivity).
  destruct (sfx_switch_restarts_loop no_random false w _ S R)
    as (_ & _ & H & _);
    [vm_compute; reflexivity | vm_compute; lia | vm_compute; lia |].
  apply H. vm_compute. discriminate.
Defined.

Lemma x_after_S k : forall x, x_after (S k) x = (x_after k x + 0.3)%float.
Proof.
  induction k as [|k IH]; intros x; [reflexivity|].
  change (x_after (S (S k)) x) with (x_after (S k) (x + 0.3)%float).
  now rewrite IH.
Qed.

Lemma clear_run_sound n : forall x,
  clear_run n x = true -> forall k, k < n -> clear_of_ends (x_after k x) = true.
Proof.
  induction n as [|n IH]; intros x H k Hk; [lia|].
  cbn [clear_run] in H. apply andb_true_iff in H. destruct H as [H1 H2].
  destruct k as [|k]; [exact H1|]. cbn [x_after]. apply IH; [exact H2|lia].
Qed.

Lemma serve_clear k : k <= 1273 -> clear_of_ends (x_after k 400) = true.
Proof.
  intros H. apply (clear_run_sound 1274); [vm_compute; reflexivity|lia].
Qed.

Lemma ticks_app a b : ticks (a ++ b) = ticks a + ticks b.
Proof.
  induction a as [|i a IH]; [reflexivity|].
  destruct i; cbn [app ticks]; rewrite IH; reflexivity.
Qed.

(** While the ball is clear of both ends a frame neither hits a paddle
    nor awards a point, whatever the paddles do. *)
Lemma clear_frame l :
  b_radius (ball l) = 8%float ->
  clear_of_ends (b_x (moved (ball l))) = true ->
  paddleHit l = false /\ pastLeft (moved (ball l)) = false
  /\ pastRight (moved (ball l)) = false.
Proof.
  intros R C. unfold clear_of_ends in C.
  rewrite !andb_true_iff, !negb_true_iff in C.
  destruct C as (((C1 & C2) & C3) & C4).
  destruct (afterWall_pos l) as (X & _ & Ra).
  unfold paddleHit, hitsPaddle, pastLeft, pastRight.
  cbn [ball paddle1 paddle2]. rewrite X, Ra.
  change (b_radius (moved (ball l))) with (b_radius (ball l)).
  rewrite R, C1, C2, C3, C4. repeat split.
Qed.

Lemma early_frames ins :
  ticks ins <= 1273 ->
  b_x (ball (run_loop ins init_loop)) = x_after (ticks ins) 400
  /\ b_dx (ball (run_loop ins init_loop)) = 0.3%float.
Proof.
  induction ins as [|i ins IH] using rev_ind; intros H.
  - split; reflexivity.
  - rewrite ticks_app in H |- *. rewrite run_loop_snoc.
    destruct i as [random|k|k]; cbn [ticks] in H |- *;
      rewrite ?Nat.add_0_r in *;
      try (cbn [loop_input with_keys ball]; apply IH; lia).
    destruct IH as [X D]; [lia|].
    replace (ticks ins + 1) with (S (ticks ins)) by lia.
    cbn [loop_input]. rewrite update_ball.
    set (l := run_loop ins init_loop) in *.
    assert (M : b_x (moved (ball l)) = x_after (S (ticks ins)) 400).
    { rewrite x_after_S. cbn [moved b_x]. now rewrite X, D. }
    destruct (clear_frame l) as (PH & PL & PR);
      [apply run_loop_radius | rewrite M; apply serve_clear; lia |].
    destruct (afterScore_velocity l) as [Ex _].
    split.
    + unfold afterScore.
      rewrite pastLeft_afterPaddle, pastRight_afterPaddle, PL, PR.
      destruct (afterPaddle_pos l) as (Xp & _ & _). now rewrite Xp.
    + now rewrite Ex, PL, PR, PH.
Qed.

(** X22. No early points. In the first 1273 frames of a loop, whatever
    keys are pressed and wherever the paddles are, no frame hits a paddle or
    awards a point: the ball travels right at 0.3 per frame from the centre,
    its position depending only on the number of frames so far. *)
Theorem no_point_in_first_frames (ins : list LoopInput)
    (random : nat -> float) :
  ticks ins < 1273 ->
  let l := run_loop ins init_loop in
  b_x (ball l) = x_after (ticks ins) 400
  /\ b_dx (ball l) = 0.3%float
  /\ paddleHit l = false
  /\ scored (snd (update random l)) = 0
  /\ b_dx (ball (fst (update random l))) = 0.3%float.
Proof.
  intros H l.
  destruct (early_frames ins) as [X D]; [lia|]. fold l in X, D.
  destruct (early_frames (ins ++ [Tick random])) as [_ D'].
  { rewrite ticks_app. cbn. lia. }
  rewrite run_loop_snoc in D'. cbn [loop_input] in D'. fold l in D'.
  destruct (clear_frame l) as (PH & PL & PR).
  { apply run_loop_radius. }
  { cbn [moved b_x]. rewrite X, D, <- x_after_S. apply serve_clear. lia. }
  rewrite update_requests, scored_requests, PL, PR.
  repeat split; assumption.
Qed.

Lemma no_point_in_first_frames_witness :
  scored (snd (update no_random
                 (run_loop (repeat (Tick no_random) 1000) init_loop))) = 0.
Proof.
  apply (no_point_in_first_frames (repeat (Tick no_random) 1000) no_random).
  vm_compute. lia.
Defined.

(** ** The key listeners *)





